(** * Geometry kernel of MSCG: distances, angles and dihedrals in a
      periodic orthorhombic box (src/geometry.cpp).

    The C++ code computes with [double] (and [real]) values.  This
    development reads every floating-point number as a real number:
    rounding, overflow and NaN are outside the model, [sqrt], [acos] and
    [sin] are the real functions of the Standard Library.

    C arrays that are only read ([particle_ids], [particle_positions],
    [simulation_box_half_lengths]) are modelled by total lookups; out
    parameters ([param_val], the [derivatives] buffer) are threaded
    explicitly: a function takes their content before the call and returns
    their content after it.  Storage that the code leaves uninitialised
    (locals, [new] arrays) is an explicit argument of arbitrary content. *)

From Stdlib Require Import Reals Lra Lia ZArith List RNsatz.
From stdpp Require Import base list.
Import ListNotations.
Local Open Scope R_scope.

(** ** Data model *)

(** [std::array<double, 3>] and [rvec]: three components, indexed 0..2. *)
Record vec3 : Type := Vec3 { c0 : R; c1 : R; c2 : R }.

Definition rvec : Type := vec3.

#[global] Instance vec3_inhabited : Inhabited vec3 := populate (Vec3 0 0 0).

(** [a[i]] for [i] in 0..2. *)
Definition idx (a : vec3) (i : nat) : R :=
  match i with
  | O => c0 a
  | S O => c1 a
  | _ => c2 a
  end.

(** The array whose component [i] is [f i]: the effect of a loop
    [for (i = 0; i < 3; i++) a[i] = f(i);] whose iterations are independent. *)
Definition tabulate3 (f : nat -> R) : vec3 := Vec3 (f 0%nat) (f 1%nat) (f 2%nat).

(** The three loop indices of [for (int i = 0; i < 3; i++)]; the macro
    [DIMENSION] of geometry.h is 3 as well. *)
Definition axes : list nat := seq 0 3.

(** [particle_ids[k]]: the id array is a list of C [int]s. *)
Definition id_at (particle_ids : list Z) (k : nat) : Z := nth k particle_ids 0%Z.

(** Comparison of two doubles as a boolean. *)
Definition Rgtb (x y : R) : bool := if Rgt_dec x y then true else false.
Definition Rltb (x y : R) : bool := if Rlt_dec x y then true else false.

(** Modelled from the spec: the constant [DEGREES_PER_RADIAN] is declared in
    geometry.h, which is not part of the sources at hand; the spec gives the
    conversion factor as 180/pi. *)
Definition DEGREES_PER_RADIAN : R := 180 / PI.

(** ** Vector helpers *)

Definition min_image_component (raw half : R) : R :=
  if Rgtb raw half then raw - 2 * half
  else if Rltb raw (- half) then raw + 2 * half
  else raw.

Definition subtract_min_image_vectors (particle_ids : list Z)
    (particle_positions : Z -> rvec) (simulation_box_half_lengths : rvec) : vec3 :=
  tabulate3 (fun i =>
    min_image_component
      (idx (particle_positions (id_at particle_ids 1)) i
       - idx (particle_positions (id_at particle_ids 0)) i)
      (idx simulation_box_half_lengths i)).

Definition cross_product (a b : vec3) : vec3 :=
  Vec3 (idx a 1 * idx b 2 - idx a 2 * idx b 1)
       (idx a 2 * idx b 0 - idx a 0 * idx b 2)
       (idx a 0 * idx b 1 - idx a 1 * idx b 0).

(** Both overloads of [dot_product] have this body. *)
Definition dot_product (a b : vec3) : R :=
  fold_left (fun t i => t + idx a i * idx b i) axes 0.

(** ** Wrapping a particle into the primary cell *)

Definition Rgeb (x y : R) : bool := if Rge_dec x y then true else false.

(** One coordinate of [get_minimum_image]. *)
Definition primary_cell_component (x half : R) : R :=
  if Rltb x 0 then x + 2 * half
  else if Rgeb x (2 * half) then x - 2 * half
  else x.

(** [get_minimum_image] updates entry [l] of the position array [frx] in
    place; the array after the call is returned. *)
Definition get_minimum_image (l : Z) (frx : Z -> rvec)
    (simulation_box_half_lengths : rvec) : Z -> rvec :=
  fun id =>
    if Z.eqb id l then
      tabulate3 (fun i =>
        primary_cell_component (idx (frx l) i) (idx simulation_box_half_lengths i))
    else frx id.

(** ** The functions that depend on the constants of geometry.h *)

Section Kernel.

(** [VERYSMALL_F] is declared in geometry.h; [MAXFLOAT] comes from the system
    headers or, failing that, from the fallback definition of the file. *)
Variable VERYSMALL_F : R.
Variable MAXFLOAT : R.

Definition check_sine (s : R) : R :=
  let s1 := if Rltb s 0 && Rgtb s (- VERYSMALL_F) then - VERYSMALL_F else s in
  if Rgtb s1 0 && Rltb s1 VERYSMALL_F then VERYSMALL_F else s1.

Definition check_cos (cos_theta : R) : R :=
  let max := 1 - VERYSMALL_F in
  let min := -1 + VERYSMALL_F in
  if Rgtb cos_theta max then max
  else if Rltb cos_theta min then min
  else cos_theta.

(** Result of a cutoff-gated function: the returned flag, then [param_val]
    and the [derivatives] buffer as the call leaves them. *)
Definition outcome : Type := (bool * R * list vec3)%type.

Definition returned (o : outcome) : bool := fst (fst o).
Definition param_of (o : outcome) : R := snd (fst o).
Definition derivs_of (o : outcome) : list vec3 := snd o.

Definition conditionally_calc_squared_distance_and_derivatives
    (particle_ids : list Z) (particle_positions : Z -> rvec)
    (simulation_box_half_lengths : rvec) (cutoff2 : R)
    (param_val : R) (derivatives : list vec3) : outcome :=
  let displacement :=
    subtract_min_image_vectors particle_ids particle_positions simulation_box_half_lengths in
  let rr2 := fold_left (fun rr2 i => rr2 + idx displacement i * idx displacement i) axes 0 in
  let param_val := rr2 in
  if Rgtb rr2 cutoff2 then (false, param_val, derivatives)
  else (true, param_val,
        <[0%nat := tabulate3 (fun i => 2 * idx displacement i)]> derivatives).

Definition conditionally_calc_distance_and_derivatives
    (particle_ids : list Z) (particle_positions : Z -> rvec)
    (simulation_box_half_lengths : rvec) (cutoff2 : R)
    (param_val : R) (derivatives : list vec3) : outcome :=
  let '(within_cutoff, param_val, derivatives) :=
    conditionally_calc_squared_distance_and_derivatives particle_ids particle_positions
      simulation_box_half_lengths cutoff2 param_val derivatives in
  if within_cutoff then
    let param_val := sqrt param_val in
    let d0 := derivatives !!! 0%nat in
    (true, param_val,
     <[0%nat := tabulate3 (fun i => 0.5 * idx d0 i / param_val)]> derivatives)
  else (false, param_val, derivatives).

(** Locals of the angle functions that are handed to the squared-distance
    routine before anything was stored in them. *)
Record scratch : Type := Scratch {
  raw_rr2_20 : R;
  raw_rr2_21 : R;
  raw_dist_derivs_20 : vec3;
  raw_dist_derivs_21 : vec3
}.

(** The clamped cosine and the two bond lengths, as the angle functions
    compute them from the two squared-distance results. *)
Definition angle_cosine (rr_20 rr_21 : R) (dist_derivs_20 dist_derivs_21 : list vec3) : R :=
  check_cos (dot_product (dist_derivs_20 !!! 0%nat) (dist_derivs_21 !!! 0%nat)
             / (4 * rr_20 * rr_21)).

Definition conditionally_calc_angle_and_derivatives
    (particle_ids : list Z) (particle_positions : Z -> rvec)
    (simulation_box_half_lengths : rvec) (cutoff2 : R) (fresh : scratch)
    (param_val : R) (derivatives : list vec3) : outcome :=
  let dist_derivs_20 := [raw_dist_derivs_20 fresh] in
  let dist_derivs_21 := [raw_dist_derivs_21 fresh] in
  let particle_ids_20 := [id_at particle_ids 2; id_at particle_ids 0] in
  let particle_ids_21 := [id_at particle_ids 2; id_at particle_ids 1] in
  let '(within_cutoff_20, rr2_20, dist_derivs_20) :=
    conditionally_calc_squared_distance_and_derivatives particle_ids_20 particle_positions
      simulation_box_half_lengths cutoff2 (raw_rr2_20 fresh) dist_derivs_20 in
  let '(within_cutoff_21, rr2_21, dist_derivs_21) :=
    conditionally_calc_squared_distance_and_derivatives particle_ids_21 particle_positions
      simulation_box_half_lengths cutoff2 (raw_rr2_21 fresh) dist_derivs_21 in
  if negb within_cutoff_20 || negb within_cutoff_21 then
    (false, param_val, derivatives)
  else
    let rr_20 := sqrt rr2_20 in
    let rr_21 := sqrt rr2_21 in
    let cos_theta := angle_cosine rr_20 rr_21 dist_derivs_20 dist_derivs_21 in
    let theta := acos cos_theta in
    let param_val := theta * DEGREES_PER_RADIAN in
    let sin_theta := sin theta in
    let rr_01_1 := 1 / (rr_20 * rr_21 * sin_theta) in
    let rr_00c := cos_theta / (rr_20 * rr_20 * sin_theta) in
    let rr_11c := cos_theta / (rr_21 * rr_21 * sin_theta) in
    let d20 := dist_derivs_20 !!! 0%nat in
    let d21 := dist_derivs_21 !!! 0%nat in
    (true, param_val,
     <[1%nat := tabulate3 (fun i => 0.5 * (idx d20 i * rr_01_1 - rr_11c * idx d21 i))]>
       (<[0%nat := tabulate3 (fun i => 0.5 * (idx d21 i * rr_01_1 - rr_00c * idx d20 i))]>
          derivatives)).

Definition conditionally_calc_dihedral_and_derivatives
    (particle_ids : list Z) (particle_positions : Z -> rvec)
    (simulation_box_half_lengths : rvec) (cutoff2 : R)
    (param_val : R) (derivatives : list vec3) : outcome :=
  let particle_ids_03 := [id_at particle_ids 3; id_at particle_ids 0] in
  let particle_ids_23 := [id_at particle_ids 3; id_at particle_ids 2] in
  let particle_ids_12 := [id_at particle_ids 2; id_at particle_ids 1] in
  let disp03 :=
    subtract_min_image_vectors particle_ids_03 particle_positions simulation_box_half_lengths in
  let disp23 :=
    subtract_min_image_vectors particle_ids_23 particle_positions simulation_box_half_lengths in
  let disp12 :=
    subtract_min_image_vectors particle_ids_12 particle_positions simulation_box_half_lengths in
  let rrbc := 1 / sqrt (dot_product disp23 disp23) in
  let pb := cross_product disp03 disp23 in
  let pc := cross_product disp12 disp23 in
  let cross_bc := cross_product pb pc in
  let pb2 := dot_product pb pb in
  let rpb1 := 1 / sqrt pb2 in
  let pc2 := dot_product pc pc in
  let rpc1 := 1 / sqrt pc2 in
  let pbpc := dot_product pb pc in
  let cos_theta := check_cos (pbpc * rpb1 * rpc1) in
  let theta := acos cos_theta in
  let sign := (- dot_product pb disp12) * rpb1 * rrbc in
  let param_val := if Rltb sign 0 then - theta else theta in
  let dot03_23 := dot_product disp03 disp23 in
  let dot12_23 := dot_product disp12 disp23 in
  let r23_2 := dot_product disp23 disp23 in
  let fcoef := dot03_23 / r23_2 in
  let hcoef := 1 + dot12_23 / r23_2 in
  let dtf := fun i => idx pb i / (rrbc * pb2) in
  let dth := fun i => (- idx pc i) / (rrbc * pc2) in
  (true, param_val,
   <[2%nat := tabulate3 (fun i => (- dtf i) * fcoef - dth i * hcoef)]>
     (<[1%nat := tabulate3 dth]>
        (<[0%nat := tabulate3 dtf]> derivatives))).

(** *** Without derivatives *)

Definition calc_squared_distance (particle_ids : list Z) (particle_positions : Z -> rvec)
    (simulation_box_half_lengths : rvec) : R :=
  fold_left (fun rr2 i =>
      let displacement :=
        subtract_min_image_vectors particle_ids particle_positions
          simulation_box_half_lengths in
      rr2 + idx displacement i * idx displacement i)
    axes 0.

Definition calc_distance (particle_ids : list Z) (particle_positions : Z -> rvec)
    (simulation_box_half_lengths : rvec) : R :=
  sqrt (calc_squared_distance particle_ids particle_positions simulation_box_half_lengths).

Definition calc_angle (particle_ids : list Z) (particle_positions : Z -> rvec)
    (simulation_box_half_lengths : rvec) (fresh : scratch) : R :=
  let dist_derivs_20 := [raw_dist_derivs_20 fresh] in
  let dist_derivs_21 := [raw_dist_derivs_21 fresh] in
  let particle_ids_20 := [id_at particle_ids 2; id_at particle_ids 0] in
  let particle_ids_21 := [id_at particle_ids 2; id_at particle_ids 1] in
  let '(_, rr2_20, dist_derivs_20) :=
    conditionally_calc_squared_distance_and_derivatives particle_ids_20 particle_positions
      simulation_box_half_lengths MAXFLOAT (raw_rr2_20 fresh) dist_derivs_20 in
  let '(_, rr2_21, dist_derivs_21) :=
    conditionally_calc_squared_distance_and_derivatives particle_ids_21 particle_positions
      simulation_box_half_lengths MAXFLOAT (raw_rr2_21 fresh) dist_derivs_21 in
  let rr_20 := sqrt rr2_20 in
  let rr_21 := sqrt rr2_21 in
  let cos_theta := angle_cosine rr_20 rr_21 dist_derivs_20 dist_derivs_21 in
  let theta := acos cos_theta in
  theta * DEGREES_PER_RADIAN.

Definition calc_dihedral (particle_ids : list Z) (particle_positions : Z -> rvec)
    (simulation_box_half_lengths : rvec) : R :=
  let particle_ids_03 := [id_at particle_ids 3; id_at particle_ids 0] in
  let particle_ids_23 := [id_at particle_ids 3; id_at particle_ids 2] in
  let particle_ids_12 := [id_at particle_ids 2; id_at particle_ids 1] in
  let disp03 :=
    subtract_min_image_vectors particle_ids_03 particle_positions simulation_box_half_lengths in
  let disp23 :=
    subtract_min_image_vectors particle_ids_23 particle_positions simulation_box_half_lengths in
  let disp12 :=
    subtract_min_image_vectors particle_ids_12 particle_positions simulation_box_half_lengths in
  let rrbc := 1 / sqrt (dot_product disp23 disp23) in
  let pb := cross_product disp03 disp23 in
  let pc := cross_product disp12 disp23 in
  let cross_bc := cross_product pb pc in
  let pb2 := dot_product pb pb in
  let rpb1 := 1 / sqrt pb2 in
  let pc2 := dot_product pc pc in
  let rpc1 := 1 / sqrt pc2 in
  let pbpc := dot_product pb pc in
  let c := check_cos (pbpc * rpb1 * rpc1) in
  let theta := acos c * DEGREES_PER_RADIAN in
  let s := dot_product pb disp12 * rpb1 * rrbc in
  if Rgtb s 0 then - theta else theta.

(** *** The angle with its intermediates *)

(** What [conditionally_calc_angle_and_intermediates] leaves behind: the
    returned flag and the six objects it receives by reference.  The three
    buffers are taken to be distinct. *)
Record angle_intermediates : Type := AngleIntermediates {
  within_cutoff : bool;
  dist_derivs_20_after : list vec3;
  dist_derivs_21_after : list vec3;
  derivatives_after : list vec3;
  param_val_after : R;
  rr_20_after : R;
  rr_21_after : R
}.

(** [raw_20] and [raw_21] are the locals [rr2_20] and [rr2_21] before
    anything was stored in them. *)
Definition conditionally_calc_angle_and_intermediates
    (particle_ids : list Z) (particle_positions : Z -> rvec)
    (simulation_box_half_lengths : rvec) (cutoff2 : R) (raw_20 raw_21 : R)
    (dist_derivs_20 dist_derivs_21 derivatives : list vec3)
    (param_val rr_20 rr_21 : R) : angle_intermediates :=
  let particle_ids_20 := [id_at particle_ids 2; id_at particle_ids 0] in
  let particle_ids_21 := [id_at particle_ids 2; id_at particle_ids 1] in
  let '(within_cutoff_20, rr2_20, dist_derivs_20) :=
    conditionally_calc_squared_distance_and_derivatives particle_ids_20 particle_positions
      simulation_box_half_lengths cutoff2 raw_20 dist_derivs_20 in
  let '(within_cutoff_21, rr2_21, dist_derivs_21) :=
    conditionally_calc_squared_distance_and_derivatives particle_ids_21 particle_positions
      simulation_box_half_lengths cutoff2 raw_21 dist_derivs_21 in
  if negb within_cutoff_20 || negb within_cutoff_21 then
    AngleIntermediates false dist_derivs_20 dist_derivs_21 derivatives
      param_val rr_20 rr_21
  else
    let rr_20 := sqrt rr2_20 in
    let rr_21 := sqrt rr2_21 in
    let cos_theta := angle_cosine rr_20 rr_21 dist_derivs_20 dist_derivs_21 in
    let theta := acos cos_theta in
    let param_val := theta * DEGREES_PER_RADIAN in
    let sin_theta := sin theta in
    let rr_01_1 := 1 / (rr_20 * rr_21 * sin_theta) in
    let rr_00c := cos_theta / (rr_20 * rr_20 * sin_theta) in
    let rr_11c := cos_theta / (rr_21 * rr_21 * sin_theta) in
    let d20 := dist_derivs_20 !!! 0%nat in
    let d21 := dist_derivs_21 !!! 0%nat in
    AngleIntermediates true dist_derivs_20 dist_derivs_21
      (<[1%nat := tabulate3 (fun i => 0.5 * (idx d20 i * rr_01_1 - rr_11c * idx d21 i))]>
         (<[0%nat := tabulate3 (fun i => 0.5 * (idx d21 i * rr_01_1 - rr_00c * idx d20 i))]>
            derivatives))
      param_val rr_20 rr_21.

End Kernel.

(** ** Notions used to state the properties *)

(** Squared Euclidean length of a displacement. *)
Definition norm2 (v : vec3) : R := c0 v * c0 v + c1 v * c1 v + c2 v * c2 v.

(** The vector [k * v]. *)
Definition scale (k : R) (v : vec3) : vec3 := Vec3 (k * c0 v) (k * c1 v) (k * c2 v).

(** The vector [v / r], each component divided as the code divides. *)
Definition divide (v : vec3) (r : R) : vec3 := Vec3 (c0 v / r) (c1 v / r) (c2 v / r).

(** The vector [- v]. *)
Definition vopp (v : vec3) : vec3 := Vec3 (- c0 v) (- c1 v) (- c2 v).

(** Every particle reflected through the origin. *)
Definition inverted (particle_positions : Z -> rvec) : Z -> rvec :=
  fun id => vopp (particle_positions id).

(** Every particle position multiplied by [k]: a change of the length unit. *)
Definition rescaled (k : R) (particle_positions : Z -> rvec) : Z -> rvec :=
  fun id => scale k (particle_positions id).

(** Along one coordinate [x] of an end particle of an angle, with the other
    coordinates fixed: the squared length of its bond, the scalar product of
    the two bonds and the cosine between them.  [a] is the vertex coordinate
    on that axis, [m] the component of the other bond, [q] its length. *)
Definition axis_norm2 (a C x : R) : R := (x - a) * (x - a) + C.
Definition axis_dot (a m D x : R) : R := (x - a) * m + D.
Definition axis_cosine (a m C D q x : R) : R :=
  axis_dot a m D x / (sqrt (axis_norm2 a C x) * q).

(** The position array with component [i] of particle [id] set to [x]. *)
Definition with_coordinate (particle_positions : Z -> rvec) (id : Z) (i : nat)
    (x : R) : Z -> rvec :=
  fun j =>
    if Z.eqb j id then
      tabulate3 (fun a => if Nat.eqb a i then x else idx (particle_positions id) a)
    else particle_positions j.

(** ** Rigid motions of a configuration *)

(** A 3x3 matrix, by rows. *)
Record mat3 : Type := Mat3 {
  m00 : R; m01 : R; m02 : R;
  m10 : R; m11 : R; m12 : R;
  m20 : R; m21 : R; m22 : R
}.

Definition mat_apply (m : mat3) (v : vec3) : vec3 :=
  Vec3 (m00 m * c0 v + m01 m * c1 v + m02 m * c2 v)
       (m10 m * c0 v + m11 m * c1 v + m12 m * c2 v)
       (m20 m * c0 v + m21 m * c1 v + m22 m * c2 v).

Definition det (m : mat3) : R :=
  m00 m * (m11 m * m22 m - m12 m * m21 m)
  - m01 m * (m10 m * m22 m - m12 m * m20 m)
  + m02 m * (m10 m * m21 m - m11 m * m20 m).

(** The columns of [m] are orthonormal: the transpose of [m] times [m] is
    the identity. *)
Definition orthogonal (m : mat3) : Prop :=
  m00 m * m00 m + m10 m * m10 m + m20 m * m20 m = 1 /\
  m01 m * m01 m + m11 m * m11 m + m21 m * m21 m = 1 /\
  m02 m * m02 m + m12 m * m12 m + m22 m * m22 m = 1 /\
  m00 m * m01 m + m10 m * m11 m + m20 m * m21 m = 0 /\
  m00 m * m02 m + m10 m * m12 m + m20 m * m22 m = 0 /\
  m01 m * m02 m + m11 m * m12 m + m21 m * m22 m = 0.

(** A rotation: orthogonal with determinant one. *)
Definition is_rotation (m : mat3) : Prop := orthogonal m /\ det m = 1.

Definition vadd (a b : vec3) : vec3 :=
  Vec3 (c0 a + c0 b) (c1 a + c1 b) (c2 a + c2 b).

(** Every particle moved by the vector [t]. *)
Definition translate (t : vec3) (particle_positions : Z -> rvec) : Z -> rvec :=
  fun id => vadd (particle_positions id) t.

(** Every particle rotated by [m], then moved by [t]. *)
Definition rigid_motion (m : mat3) (t : vec3) (particle_positions : Z -> rvec)
    : Z -> rvec :=
  fun id => vadd (mat_apply m (particle_positions id)) t.

(** The minimum-image step leaves the displacement of the pair [ids] as it
    is: each raw difference lies within the half-length of its axis. *)
Definition unwrapped (ids : list Z) (particle_positions : Z -> rvec)
    (simulation_box_half_lengths : rvec) : Prop :=
  forall i, (i < 3)%nat ->
    - idx simulation_box_half_lengths i
    <= idx (particle_positions (id_at ids 1)) i
       - idx (particle_positions (id_at ids 0)) i
    <= idx simulation_box_half_lengths i.

(** Two results of one routine with the same flag and value, the first [n]
    gradients of the second being those of the first rotated by [m], the
    rest of the buffer equal. *)
Definition rotated_outcome (m : mat3) (n : nat) (o o' : outcome) : Prop :=
  returned o' = returned o /\
  param_of o' = param_of o /\
  if returned o then
    take n (derivs_of o') = mat_apply m <$> take n (derivs_of o) /\
    drop n (derivs_of o') = drop n (derivs_of o)
  else derivs_of o' = derivs_of o.

(** ** Sample configurations *)

(** A quarter turn about the third axis. *)
Definition quarter_turn : mat3 := Mat3 0 (-1) 0  1 0 0  0 0 1.

(** Two particles five apart on the first axis, in a box whose first
    half-length is 3. *)
Definition far_pair_positions (id : Z) : rvec :=
  match id with
  | 0%Z => Vec3 0 0 0
  | _ => Vec3 5 0 0
  end.
Definition narrow_box : rvec := Vec3 3 10 10.

(** A cubic box of half-length 10 and the constant [1.0e-6]. *)
Definition wide_box : rvec := Vec3 10 10 10.
Definition one_millionth : R := 1 / 1000000.

(** Three particles with a right angle at particle 2, the vertex. *)
Definition right_angle_positions (id : Z) : rvec :=
  match id with
  | 0%Z => Vec3 0 0 0
  | 1%Z => Vec3 1 1 0
  | _ => Vec3 1 0 0
  end.

(** Four particles whose two planes are perpendicular. *)
Definition quarter_turn_positions (id : Z) : rvec :=
  match id with
  | 0%Z => Vec3 1 0 0
  | 1%Z => Vec3 0 1 1
  | 2%Z => Vec3 0 0 1
  | _ => Vec3 0 0 0
  end.

(** Four particles in one plane, the outer two on the same side of the
    central bond. *)
Definition planar_positions (id : Z) : rvec :=
  match id with
  | 0%Z => Vec3 1 0 0
  | 1%Z => Vec3 1 0 1
  | 2%Z => Vec3 0 0 1
  | _ => Vec3 0 0 0
  end.

(** Some content for the storage the angle functions leave uninitialised. *)
Definition stale : scratch := Scratch 7 7 (Vec3 7 7 7) (Vec3 7 7 7).

(** * Properties *)

(** ** Comparisons and vector helpers *)

Lemma Rgtb_true x y : Rgtb x y = true <-> x > y.
Proof. unfold Rgtb; destruct (Rgt_dec x y); split; intros; try easy. Qed.

Lemma Rgtb_false x y : Rgtb x y = false <-> x <= y.
Proof. unfold Rgtb; destruct (Rgt_dec x y); split; intros; try easy; lra. Qed.

Lemma Rltb_true x y : Rltb x y = true <-> x < y.
Proof. unfold Rltb; destruct (Rlt_dec x y); split; intros; try easy. Qed.

Lemma Rltb_false x y : Rltb x y = false <-> y <= x.
Proof. unfold Rltb; destruct (Rlt_dec x y); split; intros; try easy; lra. Qed.

(** Case analysis on one comparison of the code, leaving the fact in the context. *)
Ltac cmp_cases :=
  match goal with
  | |- context [Rgtb ?x ?y] =>
      let E := fresh "Hcmp" in
      destruct (Rgtb x y) eqn:E;
      [apply Rgtb_true in E | apply Rgtb_false in E]
  | |- context [Rltb ?x ?y] =>
      let E := fresh "Hcmp" in
      destruct (Rltb x y) eqn:E;
      [apply Rltb_true in E | apply Rltb_false in E]
  end.

Lemma vec3_ext (a b : vec3) :
  c0 a = c0 b -> c1 a = c1 b -> c2 a = c2 b -> a = b.
Proof. destruct a, b; simpl; intros; subst; reflexivity. Qed.

Lemma dot_product_spec a b :
  dot_product a b = c0 a * c0 b + c1 a * c1 b + c2 a * c2 b.
Proof. unfold dot_product, axes; simpl; ring. Qed.

Lemma dot_product_self a : dot_product a a = norm2 a.
Proof. rewrite dot_product_spec; reflexivity. Qed.

Lemma norm2_nonneg v : 0 <= norm2 v.
Proof. unfold norm2; nra. Qed.

Lemma min_image_component_cases raw half :
  (raw > half -> min_image_component raw half = raw - 2 * half) /\
  (raw <= half -> raw < - half -> min_image_component raw half = raw + 2 * half) /\
  (raw <= half -> - half <= raw -> min_image_component raw half = raw).
Proof.
  unfold min_image_component; repeat split; intros; repeat cmp_cases; lra.
Qed.

Lemma min_image_component_range raw half :
  Rabs raw <= 2 * half -> - half <= min_image_component raw half <= half.
Proof.
  intros H.
  assert (- (2 * half) <= raw <= 2 * half)
    by (revert H; unfold Rabs; destruct (Rcase_abs raw); lra).
  unfold min_image_component; repeat cmp_cases; lra.
Qed.

Lemma min_image_component_id raw half :
  - half <= raw <= half -> min_image_component raw half = raw.
Proof. intros H; unfold min_image_component; repeat cmp_cases; lra. Qed.

Lemma squared_distance_unfold ids pos box cutoff2 pv derivs :
  conditionally_calc_squared_distance_and_derivatives ids pos box cutoff2 pv derivs =
  let d := subtract_min_image_vectors ids pos box in
  if Rgtb (norm2 d) cutoff2 then (false, norm2 d, derivs)
  else (true, norm2 d, <[0%nat := scale 2 d]> derivs).
Proof.
  unfold conditionally_calc_squared_distance_and_derivatives.
  generalize (subtract_min_image_vectors ids pos box); intros d; cbv zeta.
  assert (E : fold_left (fun rr2 i => rr2 + idx d i * idx d i) axes 0 = norm2 d)
    by (unfold axes, norm2; simpl; ring).
  rewrite E; reflexivity.
Qed.

Lemma calc_squared_distance_spec ids pos box :
  calc_squared_distance ids pos box = norm2 (subtract_min_image_vectors ids pos box).
Proof. unfold calc_squared_distance, axes, norm2; simpl; ring. Qed.

(** ** Distance family *)

(** C3. The squared-distance routine always stores the minimum-image squared
    distance in [param_val]; it returns [false] exactly when that value is
    strictly greater than [cutoff2], and then the derivative buffer is the
    one it was given; otherwise it stores the gradient [2 * delta] in
    [derivatives[0]] and returns [true]. *)
Theorem squared_distance_cutoff_contract ids pos box cutoff2 pv derivs :
  let delta := subtract_min_image_vectors ids pos box in
  let o := conditionally_calc_squared_distance_and_derivatives
             ids pos box cutoff2 pv derivs in
  param_of o = norm2 delta /\
  (returned o = false <-> param_of o > cutoff2) /\
  (returned o = false -> derivs_of o = derivs) /\
  (returned o = true -> derivs_of o = <[0%nat := scale 2 delta]> derivs).
Proof.
  intros delta o; subst o; rewrite squared_distance_unfold; cbv zeta; fold delta.
  cmp_cases; unfold param_of, returned, derivs_of; simpl;
    repeat split; intros; try easy; lra.
Qed.

Lemma squared_distance_in_range ids pos box cutoff2 pv derivs :
  norm2 (subtract_min_image_vectors ids pos box) <= cutoff2 ->
  conditionally_calc_squared_distance_and_derivatives ids pos box cutoff2 pv derivs =
  (true, norm2 (subtract_min_image_vectors ids pos box),
   <[0%nat := scale 2 (subtract_min_image_vectors ids pos box)]> derivs).
Proof.
  intros H; rewrite squared_distance_unfold; cbv zeta.
  apply Rgtb_false in H; rewrite H; reflexivity.
Qed.

(** The literal [0.5] of the code is the real number one half. *)
Lemma literal_half : 0.5 = / 2.
Proof. lra. Qed.

Lemma half_of_double x k : / 2 * (2 * x) * k = x * k.
Proof. field. Qed.

Lemma half_reciprocal r : 1 / (2 * r) = / 2 * / r.
Proof.
  destruct (Req_dec r 0) as [->|Hr]; [|field; exact Hr].
  unfold Rdiv; rewrite Rmult_0_r, Rinv_0; lra.
Qed.

Lemma first_after_store (v : vec3) (l : list vec3) :
  (0 < length l)%nat -> <[0%nat := v]> l !!! 0%nat = v.
Proof. destruct l; simpl; [lia | reflexivity]. Qed.

(** C4. The distance routine returns the flag of the squared-distance routine;
    in range its value is the square root of the squared-distance value and,
    for particles that do not coincide, its gradient is the squared-distance
    gradient times [1 / (2 * distance)], which is [delta / distance]. *)
Theorem distance_agrees_with_squared_distance ids pos box cutoff2 pv pv' derivs :
  let delta := subtract_min_image_vectors ids pos box in
  let sq := conditionally_calc_squared_distance_and_derivatives
              ids pos box cutoff2 pv derivs in
  let di := conditionally_calc_distance_and_derivatives
              ids pos box cutoff2 pv' derivs in
  returned di = returned sq /\
  (returned sq = true ->
   param_of di = sqrt (param_of sq) /\
   ((0 < length derivs)%nat -> norm2 delta <> 0 ->
    derivs_of di !!! 0%nat = scale (1 / (2 * param_of di)) (derivs_of sq !!! 0%nat) /\
    derivs_of di !!! 0%nat = divide delta (param_of di))).
Proof.
  intros delta sq di; subst sq di.
  unfold conditionally_calc_distance_and_derivatives.
  rewrite !squared_distance_unfold; cbv zeta; fold delta.
  cmp_cases; unfold param_of, returned, derivs_of; simpl; split; try easy.
  intros _; split; [reflexivity|]; intros Hlen _.
  rewrite !first_after_store by (rewrite ?length_insert; exact Hlen).
  rewrite half_reciprocal, literal_half; unfold divide, Rdiv.
  generalize (/ sqrt (norm2 delta)); intros k; clearbody delta.
  split; apply vec3_ext; cbn [scale tabulate3 idx c0 c1 c2];
    solve [ring | apply half_of_double].
Qed.

(** ** Minimum-image displacement *)

Lemma subtract_min_image_vectors_no_wrap ids pos box :
  (forall i, (i < 3)%nat ->
     - idx box i
     <= idx (pos (id_at ids 1)) i - idx (pos (id_at ids 0)) i
     <= idx box i) ->
  subtract_min_image_vectors ids pos box =
  tabulate3 (fun i => idx (pos (id_at ids 1)) i - idx (pos (id_at ids 0)) i).
Proof.
  intros H; unfold subtract_min_image_vectors, tabulate3.
  rewrite !min_image_component_id by (apply H; lia); reflexivity.
Qed.

(** Case analysis on a loop index below 3. *)
Ltac each_axis i H :=
  destruct i as [|[|[|i]]]; [| | | exfalso; lia]; clear H.

Lemma quarter_turn_displacements :
  subtract_min_image_vectors [3%Z; 0%Z] quarter_turn_positions wide_box = Vec3 1 0 0 /\
  subtract_min_image_vectors [3%Z; 2%Z] quarter_turn_positions wide_box = Vec3 0 0 1 /\
  subtract_min_image_vectors [2%Z; 1%Z] quarter_turn_positions wide_box = Vec3 0 1 0.
Proof.
  repeat split;
    (rewrite subtract_min_image_vectors_no_wrap;
     [ apply vec3_ext; cbn; ring
     | intros i Hi; each_axis i Hi; cbn; lra ]).
Qed.

Lemma far_pair_wrapped (pos : Z -> rvec) hy hz :
  0 <= hy -> 0 <= hz -> pos 0%Z = Vec3 0 0 0 -> pos 1%Z = Vec3 5 0 0 ->
  subtract_min_image_vectors [0%Z; 1%Z] pos (Vec3 3 hy hz) = Vec3 (-1) 0 0.
Proof.
  intros Hy Hz P0 P1.
  unfold subtract_min_image_vectors, tabulate3, id_at; cbn [nth idx].
  rewrite P0, P1; cbn [c0 c1 c2].
  apply vec3_ext; cbn [c0 c1 c2]; unfold min_image_component;
    repeat cmp_cases; lra.
Qed.

(** C7. Component [i] of the displacement is the raw difference
    [position[b] - position[a]], less [2 * half] when it exceeds [half], plus
    [2 * half] when it is below [- half] (the second test is made only when
    the first fails, which a half-length that is not negative ensures); for
    a raw difference of at most one box length in magnitude it lies in
    [[- half, half]].  Particles at 0 and 5 on an axis of half-length 3 have
    displacement -1 and distance 1. *)
Theorem min_image_displacement_correct :
  (forall ids pos box i, (i < 3)%nat ->
     let raw := idx (pos (id_at ids 1)) i - idx (pos (id_at ids 0)) i in
     let half := idx box i in
     let d := idx (subtract_min_image_vectors ids pos box) i in
     (raw > half -> d = raw - 2 * half) /\
     (0 <= half -> raw < - half -> d = raw + 2 * half) /\
     (raw <= half -> raw < - half -> d = raw + 2 * half) /\
     (raw <= half -> - half <= raw -> d = raw) /\
     (Rabs raw <= 2 * half -> - half <= d <= half)) /\
  (forall (pos : Z -> rvec) hy hz, 0 <= hy -> 0 <= hz ->
     pos 0%Z = Vec3 0 0 0 -> pos 1%Z = Vec3 5 0 0 ->
     subtract_min_image_vectors [0%Z; 1%Z] pos (Vec3 3 hy hz) = Vec3 (-1) 0 0 /\
     calc_distance [0%Z; 1%Z] pos (Vec3 3 hy hz) = 1).
Proof.
  split.
  - intros ids pos box i Hi raw half d.
    assert (Hd : d = min_image_component raw half).
    { subst d raw half; unfold subtract_min_image_vectors, tabulate3.
      destruct i as [|[|[|i]]]; try lia; reflexivity. }
    rewrite Hd.
    pose proof (min_image_component_cases raw half) as (H1 & H2 & H3).
    pose proof (min_image_component_range raw half) as H4.
    repeat split; auto; try (apply H4; assumption).
    intros Hh Hr; apply H2; lra.
  - intros pos hy hz Hy Hz P0 P1.
    pose proof (far_pair_wrapped pos hy hz Hy Hz P0 P1) as E.
    split; [exact E|].
    unfold calc_distance; rewrite calc_squared_distance_spec, E.
    unfold norm2; cbn [c0 c1 c2].
    replace (-1 * -1 + 0 * 0 + 0 * 0) with 1 by ring.
    apply sqrt_1.
Qed.

(** ** Angle and dihedral: cutoff gates *)

Section Gates.

Variable VERYSMALL_F : R.

(** C5. The angle routine returns [false] as soon as one of the two squared
    vertex distances exceeds [cutoff2], and then [param_val] and the caller's
    derivative buffer are the ones it was given; it returns [true] only when
    both squared distances are within the cutoff. *)
Theorem angle_cutoff_gate ids pos box cutoff2 fresh pv derivs :
  let rr2_20 := norm2 (subtract_min_image_vectors
                         [id_at ids 2; id_at ids 0] pos box) in
  let rr2_21 := norm2 (subtract_min_image_vectors
                         [id_at ids 2; id_at ids 1] pos box) in
  let o := conditionally_calc_angle_and_derivatives VERYSMALL_F
             ids pos box cutoff2 fresh pv derivs in
  (rr2_20 > cutoff2 \/ rr2_21 > cutoff2 -> returned o = false) /\
  (returned o = false -> param_of o = pv /\ derivs_of o = derivs) /\
  (returned o = true -> rr2_20 <= cutoff2 /\ rr2_21 <= cutoff2).
Proof.
  intros rr2_20 rr2_21 o; subst o.
  unfold conditionally_calc_angle_and_derivatives.
  rewrite !squared_distance_unfold; cbv zeta; fold rr2_20 rr2_21.
  do 2 cmp_cases; unfold returned, param_of, derivs_of; cbn [negb orb fst snd];
    repeat split; intros; try easy; lra.
Qed.

(** C6. The dihedral routine has no failure signal: whatever [cutoff2] is it
    returns [true], and [param_val] and the first three entries of the
    derivative buffer are determined by the particles and the box alone, so
    nothing of their former content survives; the rest of the buffer is kept. *)
Theorem dihedral_always_succeeds ids pos box cutoff2 cutoff2' pv pv' derivs derivs' :
  (3 <= length derivs)%nat -> (3 <= length derivs')%nat ->
  let o := conditionally_calc_dihedral_and_derivatives VERYSMALL_F
             ids pos box cutoff2 pv derivs in
  let o' := conditionally_calc_dihedral_and_derivatives VERYSMALL_F
              ids pos box cutoff2' pv' derivs' in
  returned o = true /\
  param_of o = param_of o' /\
  take 3 (derivs_of o) = take 3 (derivs_of o') /\
  drop 3 (derivs_of o) = drop 3 derivs.
Proof.
  intros Hl Hl' o o'; subst o o'.
  unfold conditionally_calc_dihedral_and_derivatives, returned, param_of, derivs_of;
    cbn [fst snd].
  destruct derivs as [|a0 [|a1 [|a2 rest]]]; simpl in Hl; try lia.
  destruct derivs' as [|b0 [|b1 [|b2 rest']]]; simpl in Hl'; try lia.
  repeat split; reflexivity.
Qed.

End Gates.

(** ** Numerical safeguards and the angle domain *)

Lemma DEGREES_PER_RADIAN_pos : 0 < DEGREES_PER_RADIAN.
Proof.
  unfold DEGREES_PER_RADIAN; apply Rdiv_lt_0_compat; [lra | apply PI_RGT_0].
Qed.

Lemma PI_in_degrees : PI * DEGREES_PER_RADIAN = 180.
Proof. unfold DEGREES_PER_RADIAN; field; apply PI_neq0. Qed.

Lemma degrees_range theta :
  0 <= theta <= PI -> 0 <= theta * DEGREES_PER_RADIAN <= 180.
Proof.
  intros [H0 H1]; pose proof DEGREES_PER_RADIAN_pos as Hd.
  rewrite <- PI_in_degrees; split; [nra|].
  apply Rmult_le_compat_r; lra.
Qed.

Section Clamp.

Variable VERYSMALL_F : R.
Hypothesis epsilon_small : 0 < VERYSMALL_F <= 1.

Lemma check_cos_range c :
  -1 + VERYSMALL_F <= check_cos VERYSMALL_F c <= 1 - VERYSMALL_F.
Proof. unfold check_cos; cbv zeta; repeat cmp_cases; lra. Qed.

Lemma check_cos_inside c : -1 < check_cos VERYSMALL_F c < 1.
Proof. pose proof (check_cos_range c); lra. Qed.

Lemma check_cos_id c :
  -1 + VERYSMALL_F <= c <= 1 - VERYSMALL_F -> check_cos VERYSMALL_F c = c.
Proof. intros H; unfold check_cos; cbv zeta; repeat cmp_cases; lra. Qed.

Lemma acos_check_cos_range c :
  0 < acos (check_cos VERYSMALL_F c) < PI.
Proof. apply acos_bound_lt, check_cos_inside. Qed.

(** The sine of a clamped angle is at least [sin (acos (1 - VERYSMALL_F))],
    which is positive and not below [VERYSMALL_F]. *)
Lemma sin_acos_check_cos_lower c :
  VERYSMALL_F <= sin (acos (1 - VERYSMALL_F)) /\
  0 < sin (acos (1 - VERYSMALL_F)) <= sin (acos (check_cos VERYSMALL_F c)).
Proof.
  pose proof (check_cos_range c) as Hc.
  rewrite !sin_acos by lra; unfold Rsqr.
  assert (H1 : VERYSMALL_F * VERYSMALL_F
               <= 1 - (1 - VERYSMALL_F) * (1 - VERYSMALL_F)) by nra.
  assert (H2 : 1 - (1 - VERYSMALL_F) * (1 - VERYSMALL_F)
               <= 1 - check_cos VERYSMALL_F c * check_cos VERYSMALL_F c) by nra.
  assert (H3 : 0 < 1 - (1 - VERYSMALL_F) * (1 - VERYSMALL_F)) by nra.
  repeat split.
  - rewrite <- (sqrt_square VERYSMALL_F) at 1 by lra.
    apply sqrt_le_1_alt; exact H1.
  - apply sqrt_lt_R0; exact H3.
  - apply sqrt_le_1_alt; exact H2.
Qed.

Lemma check_sine_id s : VERYSMALL_F <= s -> check_sine VERYSMALL_F s = s.
Proof.
  intros H; unfold check_sine; cbv zeta.
  assert (E1 : Rltb s 0 = false) by (apply Rltb_false; lra).
  assert (E2 : Rltb s VERYSMALL_F = false) by (apply Rltb_false; lra).
  rewrite E1; cbn [andb]; rewrite E2, andb_false_r; reflexivity.
Qed.

End Clamp.

Section AngleDomain.

Variable VERYSMALL_F : R.
Variable MAXFLOAT : R.
Hypothesis epsilon_small : 0 < VERYSMALL_F <= 1.

(** C8. For three particles with both vertex distances nonzero, the value
    of [calc_angle], and the value the derivative variant stores when it
    returns [true], is [acos c] in degrees for a cosine [c] that the clamp has
    put in [[-1 + VERYSMALL_F, 1 - VERYSMALL_F]], inside the domain of [acos];
    the value lies in [[0, 180]]. *)
Theorem angle_within_0_180 ids pos box cutoff2 fresh pv derivs :
  let d20 := subtract_min_image_vectors [id_at ids 2; id_at ids 0] pos box in
  let d21 := subtract_min_image_vectors [id_at ids 2; id_at ids 1] pos box in
  norm2 d20 <> 0 -> norm2 d21 <> 0 ->
  let a := calc_angle VERYSMALL_F MAXFLOAT ids pos box fresh in
  let o := conditionally_calc_angle_and_derivatives VERYSMALL_F
             ids pos box cutoff2 fresh pv derivs in
  ((exists c, -1 + VERYSMALL_F <= c <= 1 - VERYSMALL_F /\
              a = acos c * DEGREES_PER_RADIAN) /\
   0 <= a <= 180) /\
  (returned o = true ->
   (exists c, -1 + VERYSMALL_F <= c <= 1 - VERYSMALL_F /\
              param_of o = acos c * DEGREES_PER_RADIAN) /\
   0 <= param_of o <= 180).
Proof.
  intros d20 d21 _ _ a o; subst a o.
  unfold calc_angle, conditionally_calc_angle_and_derivatives.
  rewrite !squared_distance_unfold; cbv zeta; fold d20 d21.
  split.
  - destruct (Rgtb (norm2 d20) MAXFLOAT), (Rgtb (norm2 d21) MAXFLOAT);
      (split; [eexists; split; [|reflexivity]; apply check_cos_range, epsilon_small
              | apply degrees_range, acos_bound]).
  - destruct (Rgtb (norm2 d20) cutoff2), (Rgtb (norm2 d21) cutoff2);
      unfold returned, param_of; cbn [negb orb fst snd]; intros Hret; try easy.
    split; [eexists; split; [|reflexivity]; apply check_cos_range, epsilon_small
           | apply degrees_range, acos_bound].
Qed.

(** C10. On the derivative path of the angle routine (both squared vertex
    distances nonzero and within the cutoff) the clamped cosine lies in
    [[-1 + VERYSMALL_F, 1 - VERYSMALL_F]], the angle strictly between 0 and
    pi, and its sine is at least [sin (acos (1 - VERYSMALL_F))], which is
    positive; none of the three divisors of the routine is zero, and
    [check_sine] would leave the sine as it is. *)
Theorem angle_derivative_divisions_safe ids pos box cutoff2 fresh pv derivs :
  let d20 := subtract_min_image_vectors [id_at ids 2; id_at ids 0] pos box in
  let d21 := subtract_min_image_vectors [id_at ids 2; id_at ids 1] pos box in
  norm2 d20 <> 0 -> norm2 d21 <> 0 ->
  norm2 d20 <= cutoff2 -> norm2 d21 <= cutoff2 ->
  let rr_20 := sqrt (norm2 d20) in
  let rr_21 := sqrt (norm2 d21) in
  let cos_theta :=
    check_cos VERYSMALL_F
      (dot_product (scale 2 d20) (scale 2 d21) / (4 * rr_20 * rr_21)) in
  let theta := acos cos_theta in
  let sin_theta := sin theta in
  let rr_01_1 := 1 / (rr_20 * rr_21 * sin_theta) in
  let rr_00c := cos_theta / (rr_20 * rr_20 * sin_theta) in
  let rr_11c := cos_theta / (rr_21 * rr_21 * sin_theta) in
  conditionally_calc_angle_and_derivatives VERYSMALL_F
    ids pos box cutoff2 fresh pv derivs =
  (true, theta * DEGREES_PER_RADIAN,
   <[1%nat := tabulate3 (fun i =>
        0.5 * (idx (scale 2 d20) i * rr_01_1 - rr_11c * idx (scale 2 d21) i))]>
     (<[0%nat := tabulate3 (fun i =>
          0.5 * (idx (scale 2 d21) i * rr_01_1 - rr_00c * idx (scale 2 d20) i))]>
        derivs)) /\
  -1 + VERYSMALL_F <= cos_theta <= 1 - VERYSMALL_F /\
  0 < theta < PI /\
  0 < sin (acos (1 - VERYSMALL_F)) <= sin_theta /\
  rr_20 * rr_21 * sin_theta <> 0 /\
  rr_20 * rr_20 * sin_theta <> 0 /\
  rr_21 * rr_21 * sin_theta <> 0 /\
  check_sine VERYSMALL_F sin_theta = sin_theta.
Proof.
  intros d20 d21 N20 N21 C20 C21 rr_20 rr_21 cos_theta theta sin_theta
    rr_01_1 rr_00c rr_11c.
  pose proof (sin_acos_check_cos_lower VERYSMALL_F epsilon_small
    (dot_product (scale 2 d20) (scale 2 d21) / (4 * rr_20 * rr_21)))
    as (Heps & Hpos & Hlow).
  fold cos_theta theta sin_theta in Hlow.
  assert (R20 : 0 < rr_20)
    by (apply sqrt_lt_R0; pose proof (norm2_nonneg d20); lra).
  assert (R21 : 0 < rr_21)
    by (apply sqrt_lt_R0; pose proof (norm2_nonneg d21); lra).
  assert (S : 0 < sin_theta) by lra.
  split; [|repeat split].
  - unfold conditionally_calc_angle_and_derivatives.
    rewrite !squared_distance_in_range by assumption.
    cbn [negb orb]; reflexivity.
  - apply check_cos_range, epsilon_small.
  - apply check_cos_range, epsilon_small.
  - apply acos_check_cos_range, epsilon_small.
  - apply acos_check_cos_range, epsilon_small.
  - exact Hpos.
  - exact Hlow.
  - apply Rgt_not_eq; repeat apply Rmult_lt_0_compat; assumption.
  - apply Rgt_not_eq; repeat apply Rmult_lt_0_compat; assumption.
  - apply Rgt_not_eq; repeat apply Rmult_lt_0_compat; assumption.
  - apply check_sine_id; [exact epsilon_small | lra].
Qed.

End AngleDomain.

(** ** Dihedral: sign convention and units *)

Lemma sign_tests_agree d p q : Rltb ((- d) * p * q) 0 = Rgtb (d * p * q) 0.
Proof.
  replace ((- d) * p * q) with (- (d * p * q)) by ring.
  destruct (Rgtb (d * p * q) 0) eqn:E.
  - apply Rgtb_true in E; apply Rltb_true; lra.
  - apply Rgtb_false in E; apply Rltb_false; lra.
Qed.

Section DihedralSign.

Variable VERYSMALL_F : R.

Lemma calc_dihedral_scales ids pos box cutoff2 pv derivs :
  calc_dihedral VERYSMALL_F ids pos box =
  param_of (conditionally_calc_dihedral_and_derivatives VERYSMALL_F
              ids pos box cutoff2 pv derivs) * DEGREES_PER_RADIAN.
Proof.
  unfold calc_dihedral, conditionally_calc_dihedral_and_derivatives, param_of;
    cbn [fst snd]; cbv zeta.
  rewrite sign_tests_agree.
  match goal with |- context [Rgtb ?s 0] => destruct (Rgtb s 0) end; ring.
Qed.

(** C2. The two dihedral routines negate their angle under the same
    condition: on every input the value of [calc_dihedral] is the value
    stored by the derivative variant times the conversion factor, so the two
    have the same sign and, up to that factor, the same magnitude. *)
Theorem dihedral_variants_same_sign ids pos box cutoff2 pv derivs :
  let v := param_of (conditionally_calc_dihedral_and_derivatives VERYSMALL_F
                       ids pos box cutoff2 pv derivs) in
  let w := calc_dihedral VERYSMALL_F ids pos box in
  w = v * DEGREES_PER_RADIAN /\
  (0 < w <-> 0 < v) /\ (w < 0 <-> v < 0) /\ (w = 0 <-> v = 0) /\
  Rabs w = Rabs v * DEGREES_PER_RADIAN.
Proof.
  intros v w.
  assert (E : w = v * DEGREES_PER_RADIAN) by apply calc_dihedral_scales.
  pose proof DEGREES_PER_RADIAN_pos as Hd.
  split; [exact E|]; rewrite E; repeat split; intros; try nra.
  rewrite Rabs_mult, (Rabs_pos_eq DEGREES_PER_RADIAN) by lra; reflexivity.
Qed.

Hypothesis epsilon_small : 0 < VERYSMALL_F <= 1.

(** C1 (the code departs from it). For the four particles of
    [quarter_turn_positions] the derivative variant stores [PI / 2], the angle
    in radians, where [calc_dihedral] returns 90: the stored value is not
    [180 / PI] times the signed angle. *)
Theorem dihedral_derivative_value_in_radians cutoff2 pv derivs :
  let ids := [0%Z; 1%Z; 2%Z; 3%Z] in
  param_of (conditionally_calc_dihedral_and_derivatives VERYSMALL_F
              ids quarter_turn_positions wide_box cutoff2 pv derivs) = PI / 2 /\
  calc_dihedral VERYSMALL_F ids quarter_turn_positions wide_box = 90 /\
  PI / 2 <> DEGREES_PER_RADIAN * (PI / 2).
Proof.
  intros ids.
  assert (V : param_of (conditionally_calc_dihedral_and_derivatives VERYSMALL_F
              ids quarter_turn_positions wide_box cutoff2 pv derivs) = PI / 2).
  { subst ids.
    unfold conditionally_calc_dihedral_and_derivatives, param_of; cbn [fst snd id_at nth].
    destruct quarter_turn_displacements as (-> & -> & ->); cbv zeta.
    rewrite !dot_product_spec; unfold cross_product; cbn [idx c0 c1 c2].
    replace (check_cos VERYSMALL_F _) with 0.
    2:{ rewrite check_cos_id by (try exact epsilon_small; lra); ring. }
    rewrite acos_0.
    match goal with
    | |- context [Rltb ?s 0] => assert (S : Rltb s 0 = false)
    end; [|rewrite S; reflexivity].
    apply Rltb_false.
    replace ((0 * 1 - 0 * 0) * (0 * 1 - 0 * 0) + (0 * 0 - 1 * 1) * (0 * 0 - 1 * 1)
             + (1 * 0 - 0 * 0) * (1 * 0 - 0 * 0)) with 1 by ring.
    replace (0 * 0 + 0 * 0 + 1 * 1) with 1 by ring.
    rewrite sqrt_1; lra. }
  split; [exact V|]; split.
  - rewrite (calc_dihedral_scales ids quarter_turn_positions wide_box cutoff2 pv derivs), V.
    unfold DEGREES_PER_RADIAN; field; apply PI_neq0.
  - replace (DEGREES_PER_RADIAN * (PI / 2)) with 90
      by (unfold DEGREES_PER_RADIAN; field; apply PI_neq0).
    pose proof PI_4; lra.
Qed.

End DihedralSign.

(** ** Rigid motions *)

Lemma translate_displacement t ids pos box :
  subtract_min_image_vectors ids (translate t pos) box =
  subtract_min_image_vectors ids pos box.
Proof.
  unfold subtract_min_image_vectors, tabulate3, translate, vadd; cbn [idx c0 c1 c2].
  apply vec3_ext; cbn [c0 c1 c2]; f_equal; ring.
Qed.

Lemma rigid_motion_displacement m t ids pos box :
  unwrapped ids pos box -> unwrapped ids (rigid_motion m t pos) box ->
  subtract_min_image_vectors ids (rigid_motion m t pos) box =
  mat_apply m (subtract_min_image_vectors ids pos box).
Proof.
  intros U U'.
  rewrite !subtract_min_image_vectors_no_wrap by assumption.
  unfold rigid_motion, vadd, mat_apply, tabulate3; cbn [idx c0 c1 c2].
  apply vec3_ext; cbn [c0 c1 c2]; ring.
Qed.

Section Rotation.

Variable m : mat3.
Hypothesis rotation : is_rotation m.

Lemma rotation_dot a b :
  dot_product (mat_apply m a) (mat_apply m b) = dot_product a b.
Proof.
  destruct rotation as [(H1 & H2 & H3 & H4 & H5 & H6) _].
  rewrite !dot_product_spec; unfold mat_apply; cbn [c0 c1 c2].
  destruct a as [a0 a1 a2], b as [b0 b1 b2]; cbn [c0 c1 c2].
  transitivity
    ((m00 m * m00 m + m10 m * m10 m + m20 m * m20 m) * (a0 * b0)
     + (m01 m * m01 m + m11 m * m11 m + m21 m * m21 m) * (a1 * b1)
     + (m02 m * m02 m + m12 m * m12 m + m22 m * m22 m) * (a2 * b2)
     + (m00 m * m01 m + m10 m * m11 m + m20 m * m21 m) * (a0 * b1 + a1 * b0)
     + (m00 m * m02 m + m10 m * m12 m + m20 m * m22 m) * (a0 * b2 + a2 * b0)
     + (m01 m * m02 m + m11 m * m12 m + m21 m * m22 m) * (a1 * b2 + a2 * b1));
    [ring|].
  rewrite H1, H2, H3, H4, H5, H6; ring.
Qed.

Lemma rotation_norm2 a : norm2 (mat_apply m a) = norm2 a.
Proof. rewrite <- !dot_product_self; apply rotation_dot. Qed.

Lemma rotation_cross a b :
  cross_product (mat_apply m a) (mat_apply m b) = mat_apply m (cross_product a b).
Proof.
  destruct rotation as [(H1 & H2 & H3 & H4 & H5 & H6) D].
  unfold det in D; unfold cross_product, mat_apply; cbn [idx c0 c1 c2].
  destruct a as [a0 a1 a2], b as [b0 b1 b2]; cbn [c0 c1 c2].
  apply vec3_ext; cbn [c0 c1 c2]; nsatz.
Qed.

End Rotation.

Lemma mat_apply_scale m k v : mat_apply m (scale k v) = scale k (mat_apply m v).
Proof. unfold mat_apply, scale; apply vec3_ext; cbn [c0 c1 c2]; ring. Qed.

Lemma squared_distance_rotated m ids pos pos' box cutoff2 pv derivs :
  is_rotation m ->
  subtract_min_image_vectors ids pos' box =
    mat_apply m (subtract_min_image_vectors ids pos box) ->
  rotated_outcome m 1
    (conditionally_calc_squared_distance_and_derivatives ids pos box cutoff2 pv derivs)
    (conditionally_calc_squared_distance_and_derivatives ids pos' box cutoff2 pv derivs).
Proof.
  intros Hm Hd; rewrite !squared_distance_unfold; cbv zeta.
  rewrite Hd, rotation_norm2 by exact Hm.
  destruct (Rgtb _ cutoff2); unfold rotated_outcome, returned, param_of, derivs_of;
    cbn [fst snd]; repeat split.
  - destruct derivs; cbn; [reflexivity|]; rewrite mat_apply_scale; reflexivity.
  - destruct derivs; reflexivity.
Qed.

Lemma distance_rotated m ids pos pos' box cutoff2 pv derivs :
  is_rotation m ->
  subtract_min_image_vectors ids pos' box =
    mat_apply m (subtract_min_image_vectors ids pos box) ->
  rotated_outcome m 1
    (conditionally_calc_distance_and_derivatives ids pos box cutoff2 pv derivs)
    (conditionally_calc_distance_and_derivatives ids pos' box cutoff2 pv derivs).
Proof.
  intros Hm Hd; unfold conditionally_calc_distance_and_derivatives.
  rewrite !squared_distance_unfold; cbv zeta.
  rewrite Hd, rotation_norm2 by exact Hm.
  destruct (Rgtb _ cutoff2); unfold rotated_outcome, returned, param_of, derivs_of;
    cbn [fst snd]; repeat split.
  - destruct derivs as [|g rest]; cbn [insert list_insert take fmap list_fmap];
      [reflexivity|].
    cbn [lookup_total list_lookup_total]; f_equal.
    generalize (sqrt (norm2 (subtract_min_image_vectors ids pos box))); intros r.
    generalize (subtract_min_image_vectors ids pos box); intros d.
    unfold mat_apply, scale, tabulate3, Rdiv; apply vec3_ext; cbn [idx c0 c1 c2]; ring.
  - destruct derivs; reflexivity.
Qed.

(** A gradient that is a combination of two displacements, with
    coefficients that the rotation leaves alone, rotates with them. *)
Lemma combination_rotated m (u v : vec3) (p q h : R) :
  tabulate3 (fun i => h * (idx (scale 2 (mat_apply m u)) i * p
                           - q * idx (scale 2 (mat_apply m v)) i)) =
  mat_apply m
    (tabulate3 (fun i => h * (idx (scale 2 u) i * p - q * idx (scale 2 v) i))).
Proof.
  unfold mat_apply, scale, tabulate3; apply vec3_ext; cbn [idx c0 c1 c2]; ring.
Qed.

Section AngleMotion.

Variable VERYSMALL_F : R.
Variable MAXFLOAT : R.

Lemma angle_rotated m ids pos pos' box cutoff2 fresh fresh' pv derivs :
  is_rotation m ->
  subtract_min_image_vectors [id_at ids 2; id_at ids 0] pos' box =
    mat_apply m (subtract_min_image_vectors [id_at ids 2; id_at ids 0] pos box) ->
  subtract_min_image_vectors [id_at ids 2; id_at ids 1] pos' box =
    mat_apply m (subtract_min_image_vectors [id_at ids 2; id_at ids 1] pos box) ->
  rotated_outcome m 2
    (conditionally_calc_angle_and_derivatives VERYSMALL_F
       ids pos box cutoff2 fresh pv derivs)
    (conditionally_calc_angle_and_derivatives VERYSMALL_F
       ids pos' box cutoff2 fresh' pv derivs).
Proof.
  intros Hm H20 H21; unfold conditionally_calc_angle_and_derivatives.
  rewrite !squared_distance_unfold; cbv zeta.
  rewrite H20, H21, !rotation_norm2 by exact Hm.
  generalize (subtract_min_image_vectors [id_at ids 2; id_at ids 0] pos box).
  generalize (subtract_min_image_vectors [id_at ids 2; id_at ids 1] pos box).
  intros d21 d20.
  destruct (Rgtb (norm2 d20) cutoff2), (Rgtb (norm2 d21) cutoff2);
    unfold rotated_outcome, returned, param_of, derivs_of;
    cbn [negb orb fst snd]; repeat split.
  - unfold angle_cosine; cbn [insert list_insert lookup_total list_lookup_total].
    rewrite <- !mat_apply_scale, rotation_dot by exact Hm; reflexivity.
  - unfold angle_cosine; cbn [insert list_insert lookup_total list_lookup_total].
    rewrite <- !(mat_apply_scale m 2), rotation_dot by exact Hm.
    rewrite !mat_apply_scale.
    destruct derivs as [|g0 [|g1 rest]];
      cbn [insert list_insert take fmap list_fmap]; [reflexivity | |];
      rewrite !combination_rotated; reflexivity.
  - destruct derivs as [|g0 [|g1 rest]]; reflexivity.
Qed.

Lemma calc_angle_rotated m ids pos pos' box fresh fresh' :
  is_rotation m ->
  subtract_min_image_vectors [id_at ids 2; id_at ids 0] pos' box =
    mat_apply m (subtract_min_image_vectors [id_at ids 2; id_at ids 0] pos box) ->
  subtract_min_image_vectors [id_at ids 2; id_at ids 1] pos' box =
    mat_apply m (subtract_min_image_vectors [id_at ids 2; id_at ids 1] pos box) ->
  norm2 (subtract_min_image_vectors [id_at ids 2; id_at ids 0] pos box) <= MAXFLOAT ->
  norm2 (subtract_min_image_vectors [id_at ids 2; id_at ids 1] pos box) <= MAXFLOAT ->
  calc_angle VERYSMALL_F MAXFLOAT ids pos' box fresh' =
  calc_angle VERYSMALL_F MAXFLOAT ids pos box fresh.
Proof.
  intros Hm H20 H21 M20 M21; unfold calc_angle.
  rewrite !squared_distance_unfold; cbv zeta.
  rewrite H20, H21, !rotation_norm2 by exact Hm.
  apply Rgtb_false in M20, M21; rewrite M20, M21.
  unfold angle_cosine; cbn [insert list_insert lookup_total list_lookup_total].
  rewrite <- !mat_apply_scale, rotation_dot by exact Hm; reflexivity.
Qed.

End AngleMotion.

Lemma quotient_rotated m (u : vec3) (k : R) :
  tabulate3 (fun i => idx (mat_apply m u) i / k) =
  mat_apply m (tabulate3 (fun i => idx u i / k)).
Proof.
  unfold mat_apply, tabulate3, Rdiv; apply vec3_ext; cbn [idx c0 c1 c2]; ring.
Qed.

Lemma opposite_quotient_rotated m (u : vec3) (k : R) :
  tabulate3 (fun i => (- idx (mat_apply m u) i) / k) =
  mat_apply m (tabulate3 (fun i => (- idx u i) / k)).
Proof.
  unfold mat_apply, tabulate3, Rdiv; apply vec3_ext; cbn [idx c0 c1 c2]; ring.
Qed.

Lemma middle_gradient_rotated m (u v : vec3) (k l f h : R) :
  tabulate3 (fun i => (- (idx (mat_apply m u) i / k)) * f
                      - (- idx (mat_apply m v) i) / l * h) =
  mat_apply m
    (tabulate3 (fun i => (- (idx u i / k)) * f - (- idx v i) / l * h)).
Proof.
  unfold mat_apply, tabulate3, Rdiv; apply vec3_ext; cbn [idx c0 c1 c2]; ring.
Qed.

Section DihedralMotion.

Variable VERYSMALL_F : R.

Lemma dihedral_rotated m ids pos pos' box cutoff2 pv derivs :
  is_rotation m ->
  subtract_min_image_vectors [id_at ids 3; id_at ids 0] pos' box =
    mat_apply m (subtract_min_image_vectors [id_at ids 3; id_at ids 0] pos box) ->
  subtract_min_image_vectors [id_at ids 3; id_at ids 2] pos' box =
    mat_apply m (subtract_min_image_vectors [id_at ids 3; id_at ids 2] pos box) ->
  subtract_min_image_vectors [id_at ids 2; id_at ids 1] pos' box =
    mat_apply m (subtract_min_image_vectors [id_at ids 2; id_at ids 1] pos box) ->
  rotated_outcome m 3
    (conditionally_calc_dihedral_and_derivatives VERYSMALL_F
       ids pos box cutoff2 pv derivs)
    (conditionally_calc_dihedral_and_derivatives VERYSMALL_F
       ids pos' box cutoff2 pv derivs).
Proof.
  intros Hm H03 H23 H12; unfold conditionally_calc_dihedral_and_derivatives.
  cbv zeta; rewrite H03, H23, H12.
  generalize (subtract_min_image_vectors [id_at ids 3; id_at ids 0] pos box).
  generalize (subtract_min_image_vectors [id_at ids 3; id_at ids 2] pos box).
  generalize (subtract_min_image_vectors [id_at ids 2; id_at ids 1] pos box).
  intros disp12 disp23 disp03.
  rewrite !(rotation_cross m Hm), !(rotation_dot m Hm).
  unfold rotated_outcome, returned, param_of, derivs_of; cbn [fst snd].
  repeat split.
  - destruct derivs as [|g0 [|g1 [|g2 rest]]];
      cbn [insert list_insert take fmap list_fmap]; [reflexivity | | |];
      rewrite ?quotient_rotated, ?opposite_quotient_rotated, ?middle_gradient_rotated;
      reflexivity.
  - destruct derivs as [|g0 [|g1 [|g2 rest]]]; reflexivity.
Qed.

Lemma calc_dihedral_rotated m ids pos pos' box :
  is_rotation m ->
  subtract_min_image_vectors [id_at ids 3; id_at ids 0] pos' box =
    mat_apply m (subtract_min_image_vectors [id_at ids 3; id_at ids 0] pos box) ->
  subtract_min_image_vectors [id_at ids 3; id_at ids 2] pos' box =
    mat_apply m (subtract_min_image_vectors [id_at ids 3; id_at ids 2] pos box) ->
  subtract_min_image_vectors [id_at ids 2; id_at ids 1] pos' box =
    mat_apply m (subtract_min_image_vectors [id_at ids 2; id_at ids 1] pos box) ->
  calc_dihedral VERYSMALL_F ids pos' box = calc_dihedral VERYSMALL_F ids pos box.
Proof.
  intros Hm H03 H23 H12; unfold calc_dihedral.
  cbv zeta; rewrite H03, H23, H12.
  rewrite !(rotation_cross m Hm), !(rotation_dot m Hm); reflexivity.
Qed.

End DihedralMotion.

Section Motion.

Variable VERYSMALL_F : R.
Variable MAXFLOAT : R.

Lemma angle_translated t ids pos box cutoff2 fresh fresh' pv derivs :
  conditionally_calc_angle_and_derivatives VERYSMALL_F
    ids (translate t pos) box cutoff2 fresh' pv derivs =
  conditionally_calc_angle_and_derivatives VERYSMALL_F
    ids pos box cutoff2 fresh pv derivs.
Proof.
  unfold conditionally_calc_angle_and_derivatives.
  rewrite !squared_distance_unfold, !translate_displacement; cbv zeta.
  destruct (Rgtb _ cutoff2), (Rgtb _ cutoff2); reflexivity.
Qed.

Lemma calc_angle_translated t ids pos box fresh fresh' :
  norm2 (subtract_min_image_vectors [id_at ids 2; id_at ids 0] pos box) <= MAXFLOAT ->
  norm2 (subtract_min_image_vectors [id_at ids 2; id_at ids 1] pos box) <= MAXFLOAT ->
  calc_angle VERYSMALL_F MAXFLOAT ids (translate t pos) box fresh' =
  calc_angle VERYSMALL_F MAXFLOAT ids pos box fresh.
Proof.
  intros M20 M21; unfold calc_angle.
  rewrite !squared_distance_unfold, !translate_displacement; cbv zeta.
  apply Rgtb_false in M20, M21; rewrite M20, M21; reflexivity.
Qed.

(** C9, as amended. A translation of all particles leaves every value and
    every gradient of the distance, angle and dihedral routines as it is,
    the minimum-image step included.  A rotation followed by a translation
    leaves the values as they are and rotates the gradients, provided the
    minimum-image step changes none of the displacements involved, before
    and after the motion.  For [calc_angle] both squared vertex distances
    are taken to be at most [MAXFLOAT]. *)
Theorem motion_invariance_up_to_wrap :
  (forall t ids pos box cutoff2 fresh fresh' pv derivs,
     let pos' := translate t pos in
     calc_squared_distance ids pos' box = calc_squared_distance ids pos box /\
     calc_distance ids pos' box = calc_distance ids pos box /\
     calc_dihedral VERYSMALL_F ids pos' box = calc_dihedral VERYSMALL_F ids pos box /\
     (norm2 (subtract_min_image_vectors [id_at ids 2; id_at ids 0] pos box)
        <= MAXFLOAT ->
      norm2 (subtract_min_image_vectors [id_at ids 2; id_at ids 1] pos box)
        <= MAXFLOAT ->
      calc_angle VERYSMALL_F MAXFLOAT ids pos' box fresh' =
      calc_angle VERYSMALL_F MAXFLOAT ids pos box fresh) /\
     conditionally_calc_squared_distance_and_derivatives
       ids pos' box cutoff2 pv derivs =
     conditionally_calc_squared_distance_and_derivatives
       ids pos box cutoff2 pv derivs /\
     conditionally_calc_distance_and_derivatives ids pos' box cutoff2 pv derivs =
     conditionally_calc_distance_and_derivatives ids pos box cutoff2 pv derivs /\
     conditionally_calc_angle_and_derivatives VERYSMALL_F
       ids pos' box cutoff2 fresh' pv derivs =
     conditionally_calc_angle_and_derivatives VERYSMALL_F
       ids pos box cutoff2 fresh pv derivs /\
     conditionally_calc_dihedral_and_derivatives VERYSMALL_F
       ids pos' box cutoff2 pv derivs =
     conditionally_calc_dihedral_and_derivatives VERYSMALL_F
       ids pos box cutoff2 pv derivs) /\
  (forall m t ids pos box cutoff2 fresh fresh' pv derivs,
     is_rotation m ->
     let pos' := rigid_motion m t pos in
     (unwrapped ids pos box -> unwrapped ids pos' box ->
      calc_squared_distance ids pos' box = calc_squared_distance ids pos box /\
      calc_distance ids pos' box = calc_distance ids pos box /\
      rotated_outcome m 1
        (conditionally_calc_squared_distance_and_derivatives
           ids pos box cutoff2 pv derivs)
        (conditionally_calc_squared_distance_and_derivatives
           ids pos' box cutoff2 pv derivs) /\
      rotated_outcome m 1
        (conditionally_calc_distance_and_derivatives ids pos box cutoff2 pv derivs)
        (conditionally_calc_distance_and_derivatives ids pos' box cutoff2 pv derivs)) /\
     (unwrapped [id_at ids 2; id_at ids 0] pos box ->
      unwrapped [id_at ids 2; id_at ids 0] pos' box ->
      unwrapped [id_at ids 2; id_at ids 1] pos box ->
      unwrapped [id_at ids 2; id_at ids 1] pos' box ->
      (norm2 (subtract_min_image_vectors [id_at ids 2; id_at ids 0] pos box)
         <= MAXFLOAT ->
       norm2 (subtract_min_image_vectors [id_at ids 2; id_at ids 1] pos box)
         <= MAXFLOAT ->
       calc_angle VERYSMALL_F MAXFLOAT ids pos' box fresh' =
       calc_angle VERYSMALL_F MAXFLOAT ids pos box fresh) /\
      rotated_outcome m 2
        (conditionally_calc_angle_and_derivatives VERYSMALL_F
           ids pos box cutoff2 fresh pv derivs)
        (conditionally_calc_angle_and_derivatives VERYSMALL_F
           ids pos' box cutoff2 fresh' pv derivs)) /\
     (unwrapped [id_at ids 3; id_at ids 0] pos box ->
      unwrapped [id_at ids 3; id_at ids 0] pos' box ->
      unwrapped [id_at ids 3; id_at ids 2] pos box ->
      unwrapped [id_at ids 3; id_at ids 2] pos' box ->
      unwrapped [id_at ids 2; id_at ids 1] pos box ->
      unwrapped [id_at ids 2; id_at ids 1] pos' box ->
      calc_dihedral VERYSMALL_F ids pos' box = calc_dihedral VERYSMALL_F ids pos box /\
      rotated_outcome m 3
        (conditionally_calc_dihedral_and_derivatives VERYSMALL_F
           ids pos box cutoff2 pv derivs)
        (conditionally_calc_dihedral_and_derivatives VERYSMALL_F
           ids pos' box cutoff2 pv derivs))).
Proof.
  split.
  - intros t ids pos box cutoff2 fresh fresh' pv derivs pos'; subst pos'.
    repeat split.
    + rewrite !calc_squared_distance_spec, translate_displacement; reflexivity.
    + unfold calc_distance.
      rewrite !calc_squared_distance_spec, translate_displacement; reflexivity.
    + unfold calc_dihedral; rewrite !translate_displacement; reflexivity.
    + apply calc_angle_translated.
    + rewrite !squared_distance_unfold, translate_displacement; reflexivity.
    + unfold conditionally_calc_distance_and_derivatives.
      rewrite !squared_distance_unfold, translate_displacement; reflexivity.
    + apply angle_translated.
    + unfold conditionally_calc_dihedral_and_derivatives.
      rewrite !translate_displacement; reflexivity.
  - intros m t ids pos box cutoff2 fresh fresh' pv derivs Hm pos'; subst pos'.
    split; [|split].
    + intros U U'.
      pose proof (rigid_motion_displacement m t ids pos box U U') as Hd.
      split; [|split; [|split]].
      * rewrite !calc_squared_distance_spec, Hd; apply (rotation_norm2 m Hm).
      * unfold calc_distance.
        rewrite !calc_squared_distance_spec, Hd, rotation_norm2 by exact Hm.
        reflexivity.
      * apply squared_distance_rotated; assumption.
      * apply distance_rotated; assumption.
    + intros U20 U20' U21 U21'.
      pose proof (rigid_motion_displacement m t _ pos box U20 U20') as H20.
      pose proof (rigid_motion_displacement m t _ pos box U21 U21') as H21.
      split.
      * apply calc_angle_rotated with (m := m); assumption.
      * apply angle_rotated; assumption.
    + intros U03 U03' U23 U23' U12 U12'.
      pose proof (rigid_motion_displacement m t _ pos box U03 U03') as H03.
      pose proof (rigid_motion_displacement m t _ pos box U23 U23') as H23.
      pose proof (rigid_motion_displacement m t _ pos box U12 U12') as H12.
      split.
      * apply calc_dihedral_rotated with (m := m); assumption.
      * apply dihedral_rotated; assumption.
Qed.

End Motion.

(** ** The claims at sample configurations *)

Lemma quarter_turn_is_rotation : is_rotation quarter_turn.
Proof. unfold is_rotation, orthogonal, det, quarter_turn; cbn; repeat split; ring. Qed.

Lemma one_millionth_small : 0 < one_millionth <= 1.
Proof. unfold one_millionth; lra. Qed.

Lemma right_angle_displacements :
  subtract_min_image_vectors [2%Z; 0%Z] right_angle_positions wide_box = Vec3 (-1) 0 0 /\
  subtract_min_image_vectors [2%Z; 1%Z] right_angle_positions wide_box = Vec3 0 1 0.
Proof.
  repeat split;
    (rewrite subtract_min_image_vectors_no_wrap;
     [ apply vec3_ext; cbn; ring
     | intros i Hi; each_axis i Hi; cbn; lra ]).
Qed.

(** C9, as stated, fails: a quarter turn about the third axis takes the pair
    of [far_pair_positions], whose minimum-image distance in [narrow_box] is
    1, to a pair whose distance is 5. *)
Lemma rotation_changes_wrapped_distance :
  is_rotation quarter_turn /\
  calc_distance [0%Z; 1%Z] far_pair_positions narrow_box = 1 /\
  calc_distance [0%Z; 1%Z]
    (rigid_motion quarter_turn (Vec3 0 0 0) far_pair_positions) narrow_box = 5.
Proof.
  split; [exact quarter_turn_is_rotation|]; split.
  - unfold calc_distance, narrow_box.
    rewrite calc_squared_distance_spec, far_pair_wrapped by (reflexivity || lra).
    unfold norm2; cbn [c0 c1 c2].
    replace (-1 * -1 + 0 * 0 + 0 * 0) with 1 by ring.
    apply sqrt_1.
  - unfold calc_distance.
    rewrite calc_squared_distance_spec, subtract_min_image_vectors_no_wrap.
    + unfold norm2, tabulate3; cbn.
      match goal with
      | |- sqrt ?x = 5 => replace x with (5 * 5) by ring
      end.
      apply sqrt_square; lra.
    + intros i Hi; each_axis i Hi; cbn; lra.
Qed.

Lemma dihedral_always_succeeds_witness :
  (3 <= length [Vec3 0 0 0; Vec3 0 0 0; Vec3 0 0 0])%nat /\
  returned (conditionally_calc_dihedral_and_derivatives one_millionth
              [0%Z; 1%Z; 2%Z; 3%Z] quarter_turn_positions wide_box 0 0
              [Vec3 0 0 0; Vec3 0 0 0; Vec3 0 0 0]) = true.
Proof.
  split; [simpl; lia|].
  apply (dihedral_always_succeeds one_millionth
           [0%Z; 1%Z; 2%Z; 3%Z] quarter_turn_positions wide_box 0 0 0 0
           [Vec3 0 0 0; Vec3 0 0 0; Vec3 0 0 0]
           [Vec3 0 0 0; Vec3 0 0 0; Vec3 0 0 0]); simpl; lia.
Defined.

Lemma dihedral_derivative_value_in_radians_witness :
  0 < one_millionth <= 1 /\
  param_of (conditionally_calc_dihedral_and_derivatives one_millionth
              [0%Z; 1%Z; 2%Z; 3%Z] quarter_turn_positions wide_box 100 0 []) = PI / 2.
Proof.
  split; [exact one_millionth_small|].
  apply (dihedral_derivative_value_in_radians one_millionth one_millionth_small 100 0 []).
Defined.

Lemma angle_within_0_180_witness :
  0 < one_millionth <= 1 /\
  0 <= calc_angle one_millionth 10000000000
         [0%Z; 1%Z; 2%Z] right_angle_positions wide_box stale <= 180.
Proof.
  split; [exact one_millionth_small|].
  apply (angle_within_0_180 one_millionth 10000000000 one_millionth_small
           [0%Z; 1%Z; 2%Z] right_angle_positions wide_box 4 stale 0 []);
    cbn [id_at nth];
    rewrite ?(proj1 right_angle_displacements), ?(proj2 right_angle_displacements);
    unfold norm2; cbn [c0 c1 c2]; lra.
Defined.

Lemma angle_derivative_divisions_safe_witness :
  0 < one_millionth <= 1 /\
  returned (conditionally_calc_angle_and_derivatives one_millionth
              [0%Z; 1%Z; 2%Z] right_angle_positions wide_box 4 stale 0
              [Vec3 0 0 0; Vec3 0 0 0]) = true.
Proof.
  split; [exact one_millionth_small|].
  rewrite (proj1 (angle_derivative_divisions_safe one_millionth one_millionth_small
                    [0%Z; 1%Z; 2%Z] right_angle_positions wide_box 4 stale 0
                    [Vec3 0 0 0; Vec3 0 0 0]
                    ltac:(cbn [id_at nth];
                          rewrite (proj1 right_angle_displacements);
                          unfold norm2; cbn [c0 c1 c2]; lra)
                    ltac:(cbn [id_at nth];
                          rewrite (proj2 right_angle_displacements);
                          unfold norm2; cbn [c0 c1 c2]; lra)
                    ltac:(cbn [id_at nth];
                          rewrite (proj1 right_angle_displacements);
                          unfold norm2; cbn [c0 c1 c2]; lra)
                    ltac:(cbn [id_at nth];
                          rewrite (proj2 right_angle_displacements);
                          unfold norm2; cbn [c0 c1 c2]; lra))).
  reflexivity.
Defined.

(** The scenario of the angle family: the angle at the vertex (1,0,0)
    between (0,0,0) and (1,1,0) is 90 degrees. *)
Example right_angle_is_90 :
  calc_angle one_millionth 10000000000
    [0%Z; 1%Z; 2%Z] right_angle_positions wide_box stale = 90.
Proof.
  pose proof one_millionth_small as He.
  unfold calc_angle; cbn [id_at nth].
  rewrite !squared_distance_in_range;
    rewrite ?(proj1 right_angle_displacements), ?(proj2 right_angle_displacements);
    unfold norm2; cbn [c0 c1 c2]; try lra.
  unfold angle_cosine; cbn [insert list_insert lookup_total list_lookup_total].
  rewrite dot_product_spec; unfold scale; cbn [c0 c1 c2].
  replace (-1 * -1 + 0 * 0 + 0 * 0) with 1 by ring.
  replace (0 * 0 + 1 * 1 + 0 * 0) with 1 by ring.
  rewrite sqrt_1.
  replace ((2 * -1 * (2 * 0) + 2 * 0 * (2 * 1) + 2 * 0 * (2 * 0)) / (4 * 1 * 1))
    with 0 by field.
  rewrite check_cos_id by lra.
  rewrite acos_0; unfold DEGREES_PER_RADIAN; field; apply PI_neq0.
Qed.

Lemma min_image_displacement_correct_witness :
  (0 < 3)%nat /\
  idx (subtract_min_image_vectors [0%Z; 1%Z] far_pair_positions narrow_box) 0 =
  5 - 0 - 2 * 3.
Proof.
  split; [lia|].
  exact (proj1 (proj1 min_image_displacement_correct
                  [0%Z; 1%Z] far_pair_positions narrow_box 0%nat ltac:(lia))
               ltac:(cbn; lra)).
Defined.

Lemma motion_invariance_up_to_wrap_witness :
  is_rotation quarter_turn /\
  calc_dihedral one_millionth [0%Z; 1%Z; 2%Z; 3%Z]
    (rigid_motion quarter_turn (Vec3 1 2 3) quarter_turn_positions) wide_box =
  calc_dihedral one_millionth [0%Z; 1%Z; 2%Z; 3%Z] quarter_turn_positions wide_box.
Proof.
  split; [exact quarter_turn_is_rotation|].
  apply (proj2 (motion_invariance_up_to_wrap one_millionth 10000000000)
           quarter_turn (Vec3 1 2 3) [0%Z; 1%Z; 2%Z; 3%Z]
           quarter_turn_positions wide_box 100 stale stale 0 []
           quarter_turn_is_rotation);
    intros i Hi; each_axis i Hi; cbn; lra.
Defined.

(** * Further properties of the kernel *)

(** ** Wrapping into the primary cell *)

Lemma Rgeb_true x y : Rgeb x y = true <-> x >= y.
Proof. unfold Rgeb; destruct (Rge_dec x y); split; intros; try easy. Qed.

Lemma Rgeb_false x y : Rgeb x y = false <-> x < y.
Proof. unfold Rgeb; destruct (Rge_dec x y); split; intros; try easy; lra. Qed.

(** Case analysis on the comparisons of [get_minimum_image]. *)
Ltac cell_cases :=
  unfold primary_cell_component;
  repeat match goal with
  | |- context [Rltb ?x ?y] =>
      let E := fresh "Hcmp" in
      destruct (Rltb x y) eqn:E;
      [apply Rltb_true in E | apply Rltb_false in E]
  | |- context [Rgeb ?x ?y] =>
      let E := fresh "Hcmp" in
      destruct (Rgeb x y) eqn:E;
      [apply Rgeb_true in E | apply Rgeb_false in E]
  end.

Lemma primary_cell_component_range x half :
  - (2 * half) <= x < 4 * half ->
  0 <= primary_cell_component x half < 2 * half.
Proof. intros H; cell_cases; lra. Qed.

Lemma primary_cell_component_fixed x half :
  0 <= x < 2 * half -> primary_cell_component x half = x.
Proof. intros H; cell_cases; lra. Qed.

Lemma primary_cell_component_shift x half :
  exists k : Z, (-1 <= k <= 1)%Z /\
    primary_cell_component x half = x + IZR k * (2 * half).
Proof.
  cell_cases;
    [exists 1%Z | exists (-1)%Z | exists 0%Z]; (split; [lia | lra]).
Qed.

Lemma get_minimum_image_at l frx box i :
  (i < 3)%nat ->
  idx (get_minimum_image l frx box l) i =
  primary_cell_component (idx (frx l) i) (idx box i).
Proof.
  intros Hi; unfold get_minimum_image; rewrite Z.eqb_refl.
  each_axis i Hi; reflexivity.
Qed.

Lemma get_minimum_image_elsewhere l frx box id :
  id <> l -> get_minimum_image l frx box id = frx id.
Proof.
  intros H; unfold get_minimum_image.
  destruct (Z.eqb_spec id l); [contradiction | reflexivity].
Qed.

(** X1. [get_minimum_image] moves each coordinate of particle [l] by nothing
    or by one box length; a coordinate that is at most one box length outside
    [[0, 2 * half)] ends inside it, a coordinate already inside is kept (so a
    second call changes nothing), and no other particle is touched. *)
Theorem get_minimum_image_into_cell l frx box :
  (forall i, (i < 3)%nat ->
     let x := idx (frx l) i in
     let half := idx box i in
     let y := idx (get_minimum_image l frx box l) i in
     (y = x \/ y = x + 2 * half \/ y = x - 2 * half) /\
     (- (2 * half) <= x < 4 * half -> 0 <= y < 2 * half) /\
     (0 <= x < 2 * half -> y = x) /\
     (- (2 * half) <= x < 4 * half ->
      idx (get_minimum_image l (get_minimum_image l frx box) box l) i = y)) /\
  (forall id, id <> l -> get_minimum_image l frx box id = frx id).
Proof.
  split; [|intros id; apply get_minimum_image_elsewhere].
  intros i Hi x half y; subst y.
  rewrite !get_minimum_image_at by exact Hi; fold x half.
  repeat split.
  - cell_cases; [right; left | right; right | left]; lra.
  - apply primary_cell_component_range; assumption.
  - apply primary_cell_component_range; assumption.
  - apply primary_cell_component_fixed.
  - intros H; apply primary_cell_component_fixed, primary_cell_component_range, H.
Qed.

(** X2. The wrap is a single step, not a reduction modulo the box length: a
    coordinate two box lengths or more above the cell, or more than one box
    length below it, is still outside the cell after the call. *)
Theorem get_minimum_image_single_step l frx box i :
  (i < 3)%nat -> 0 < idx box i ->
  let x := idx (frx l) i in
  let half := idx box i in
  let y := idx (get_minimum_image l frx box l) i in
  (4 * half <= x -> 2 * half <= y) /\ (x < - (2 * half) -> y < 0).
Proof.
  intros Hi Hb x half y; subst y x half.
  rewrite get_minimum_image_at by exact Hi.
  split; intros H; cell_cases; lra.
Qed.

(** ** Minimum-image displacements and distances *)

Lemma subtract_min_image_vectors_at ids pos box i :
  (i < 3)%nat ->
  idx (subtract_min_image_vectors ids pos box) i =
  min_image_component
    (idx (pos (id_at ids 1)) i - idx (pos (id_at ids 0)) i) (idx box i).
Proof. intros Hi; each_axis i Hi; reflexivity. Qed.

Lemma min_image_component_opp raw half :
  0 <= half ->
  min_image_component (- raw) half = - min_image_component raw half.
Proof. intros H; unfold min_image_component; repeat cmp_cases; lra. Qed.

Lemma min_image_component_shift raw half :
  exists k : Z, (-1 <= k <= 1)%Z /\
    min_image_component raw half = raw + IZR k * (2 * half).
Proof.
  unfold min_image_component; repeat cmp_cases;
    [exists (-1)%Z | exists 1%Z | exists 0%Z]; (split; [lia | lra]).
Qed.

Lemma min_image_component_square_le raw half :
  Rabs raw <= 2 * half ->
  min_image_component raw half * min_image_component raw half <= half * half.
Proof. intros H; pose proof (min_image_component_range raw half H); nra. Qed.

(** X3. Once both particles of a pair were wrapped into the primary cell
    (each coordinate having been at most one box length outside it), every
    component of their minimum-image displacement lies in [[- half, half]]
    and differs from the difference of the original coordinates by a whole
    number of box lengths. *)
Theorem displacement_after_wrapping a b frx box i :
  (i < 3)%nat ->
  (forall j, (j < 3)%nat ->
     - (2 * idx box j) <= idx (frx a) j < 4 * idx box j) ->
  (forall j, (j < 3)%nat ->
     - (2 * idx box j) <= idx (frx b) j < 4 * idx box j) ->
  let wrapped := get_minimum_image b (get_minimum_image a frx box) box in
  let d := idx (subtract_min_image_vectors [a; b] wrapped box) i in
  - idx box i <= d <= idx box i /\
  exists k : Z,
    d = idx (frx b) i - idx (frx a) i + IZR k * (2 * idx box i).
Proof.
  intros Hi Ha Hb wrapped d; subst d wrapped.
  rewrite subtract_min_image_vectors_at by exact Hi; cbn [id_at nth].
  specialize (Ha i Hi); specialize (Hb i Hi).
  set (h := idx box i) in *.
  assert (Ea : idx (get_minimum_image b (get_minimum_image a frx box) box a) i =
               primary_cell_component (idx (frx a) i) h).
  { destruct (Z.eq_dec a b) as [<-|Hne].
    - rewrite !get_minimum_image_at by exact Hi.
      apply primary_cell_component_fixed, primary_cell_component_range, Ha.
    - rewrite get_minimum_image_elsewhere by exact Hne.
      apply get_minimum_image_at, Hi. }
  assert (Eb : idx (get_minimum_image b (get_minimum_image a frx box) box b) i =
               primary_cell_component (idx (frx b) i) h).
  { rewrite get_minimum_image_at by exact Hi.
    destruct (Z.eq_dec a b) as [<-|Hne].
    - rewrite get_minimum_image_at by exact Hi.
      apply primary_cell_component_fixed, primary_cell_component_range, Ha.
    - rewrite get_minimum_image_elsewhere by (intros E; apply Hne; symmetry; exact E).
      reflexivity. }
  rewrite Ea, Eb.
  pose proof (primary_cell_component_range _ _ Ha) as Ra.
  pose proof (primary_cell_component_range _ _ Hb) as Rb.
  destruct (primary_cell_component_shift (idx (frx a) i) h) as (ka & _ & Sa).
  destruct (primary_cell_component_shift (idx (frx b) i) h) as (kb & _ & Sb).
  split.
  - apply min_image_component_range.
    unfold Rabs; destruct (Rcase_abs _); lra.
  - destruct (min_image_component_shift
                (primary_cell_component (idx (frx b) i) h
                 - primary_cell_component (idx (frx a) i) h) h) as (km & _ & Sm).
    exists (kb - ka + km)%Z.
    rewrite Sm, Sa, Sb, plus_IZR, minus_IZR; ring.
Qed.

Lemma displacement_reversed a b pos box :
  (forall i, (i < 3)%nat -> 0 <= idx box i) ->
  subtract_min_image_vectors [b; a] pos box =
  vopp (subtract_min_image_vectors [a; b] pos box).
Proof.
  intros Hbox; apply vec3_ext;
    [ pose proof (Hbox 0%nat ltac:(lia)) as H
    | pose proof (Hbox 1%nat ltac:(lia)) as H
    | pose proof (Hbox 2%nat ltac:(lia)) as H ];
    unfold subtract_min_image_vectors, tabulate3, vopp, id_at;
    cbn [nth idx c0 c1 c2] in *;
    rewrite <- min_image_component_opp by exact H; f_equal; ring.
Qed.

Lemma norm2_vopp v : norm2 (vopp v) = norm2 v.
Proof. unfold norm2, vopp; cbn [c0 c1 c2]; ring. Qed.

(** X4. In a box whose half-lengths are not negative, exchanging the two
    particles of a pair negates the minimum-image displacement, so the
    squared distance and the distance do not depend on the order of the
    pair. *)
Theorem distance_symmetric a b pos box :
  (forall i, (i < 3)%nat -> 0 <= idx box i) ->
  subtract_min_image_vectors [b; a] pos box =
    vopp (subtract_min_image_vectors [a; b] pos box) /\
  calc_squared_distance [b; a] pos box = calc_squared_distance [a; b] pos box /\
  calc_distance [b; a] pos box = calc_distance [a; b] pos box.
Proof.
  intros Hbox.
  pose proof (displacement_reversed a b pos box Hbox) as E.
  assert (S : calc_squared_distance [b; a] pos box =
              calc_squared_distance [a; b] pos box)
    by (rewrite !calc_squared_distance_spec, E; apply norm2_vopp).
  repeat split; [exact E | exact S |].
  unfold calc_distance; rewrite S; reflexivity.
Qed.

(** X5. When every raw coordinate difference of a pair is at most one box
    length in magnitude, the squared distance is at most the squared length
    of the half-diagonal of the box, and the distance at most that length. *)
Theorem distance_within_half_diagonal ids pos box :
  (forall i, (i < 3)%nat ->
     Rabs (idx (pos (id_at ids 1)) i - idx (pos (id_at ids 0)) i)
     <= 2 * idx box i) ->
  0 <= calc_squared_distance ids pos box <= norm2 box /\
  0 <= calc_distance ids pos box <= sqrt (norm2 box).
Proof.
  intros H.
  assert (B : 0 <= calc_squared_distance ids pos box <= norm2 box).
  { rewrite calc_squared_distance_spec; split; [apply norm2_nonneg|].
    pose proof (min_image_component_square_le _ _ (H 0%nat ltac:(lia))) as H0.
    pose proof (min_image_component_square_le _ _ (H 1%nat ltac:(lia))) as H1.
    pose proof (min_image_component_square_le _ _ (H 2%nat ltac:(lia))) as H2.
    unfold norm2, subtract_min_image_vectors, tabulate3; cbn [idx c0 c1 c2] in *.
    lra. }
  split; [exact B|]; unfold calc_distance; split.
  - apply sqrt_pos.
  - apply sqrt_le_1_alt, B.
Qed.

Lemma distance_unfold ids pos box cutoff2 pv derivs :
  conditionally_calc_distance_and_derivatives ids pos box cutoff2 pv derivs =
  let d := subtract_min_image_vectors ids pos box in
  if Rgtb (norm2 d) cutoff2 then (false, norm2 d, derivs)
  else (true, sqrt (norm2 d),
        <[0%nat := tabulate3 (fun i =>
             0.5 * idx (<[0%nat := scale 2 d]> derivs !!! 0%nat) i / sqrt (norm2 d))]>
          (<[0%nat := scale 2 d]> derivs)).
Proof.
  unfold conditionally_calc_distance_and_derivatives.
  rewrite squared_distance_unfold; cbv zeta.
  destruct (Rgtb _ cutoff2); reflexivity.
Qed.

(** X6. The plain and the gated distance routines agree: the gated
    squared-distance value is [calc_squared_distance], and the gated distance
    value is [calc_distance] when the pair is in range.  When it is out of
    range the gated distance routine leaves the squared distance, not the
    distance, in [param_val], and the buffer as it was. *)
Theorem plain_and_gated_distances_agree ids pos box cutoff2 pv derivs :
  let sq := conditionally_calc_squared_distance_and_derivatives
              ids pos box cutoff2 pv derivs in
  let di := conditionally_calc_distance_and_derivatives
              ids pos box cutoff2 pv derivs in
  param_of sq = calc_squared_distance ids pos box /\
  (returned di = true -> param_of di = calc_distance ids pos box) /\
  (returned di = false ->
   param_of di = calc_squared_distance ids pos box /\ derivs_of di = derivs).
Proof.
  intros sq di; subst sq di; unfold calc_distance.
  rewrite distance_unfold, squared_distance_unfold, calc_squared_distance_spec.
  cbv zeta; destruct (Rgtb _ cutoff2); unfold param_of, returned, derivs_of;
    cbn [fst snd]; repeat split; intros; easy.
Qed.

Section Cutoff.

Variable VERYSMALL_F : R.

Lemma angle_unfold ids pos box cutoff2 fresh pv derivs :
  conditionally_calc_angle_and_derivatives VERYSMALL_F
    ids pos box cutoff2 fresh pv derivs =
  let d20 := subtract_min_image_vectors [id_at ids 2; id_at ids 0] pos box in
  let d21 := subtract_min_image_vectors [id_at ids 2; id_at ids 1] pos box in
  if Rgtb (norm2 d20) cutoff2 || Rgtb (norm2 d21) cutoff2 then (false, pv, derivs)
  else
    let rr_20 := sqrt (norm2 d20) in
    let rr_21 := sqrt (norm2 d21) in
    let cos_theta :=
      check_cos VERYSMALL_F
        (dot_product (scale 2 d20) (scale 2 d21) / (4 * rr_20 * rr_21)) in
    let sin_theta := sin (acos cos_theta) in
    let rr_01_1 := 1 / (rr_20 * rr_21 * sin_theta) in
    let rr_00c := cos_theta / (rr_20 * rr_20 * sin_theta) in
    let rr_11c := cos_theta / (rr_21 * rr_21 * sin_theta) in
    (true, acos cos_theta * DEGREES_PER_RADIAN,
     <[1%nat := tabulate3 (fun i =>
          0.5 * (idx (scale 2 d20) i * rr_01_1 - rr_11c * idx (scale 2 d21) i))]>
       (<[0%nat := tabulate3 (fun i =>
            0.5 * (idx (scale 2 d21) i * rr_01_1 - rr_00c * idx (scale 2 d20) i))]>
          derivs)).
Proof.
  unfold conditionally_calc_angle_and_derivatives.
  rewrite !squared_distance_unfold; cbv zeta.
  destruct (Rgtb _ cutoff2), (Rgtb _ cutoff2); reflexivity.
Qed.

Lemma Rgtb_wider x c c' : c <= c' -> Rgtb x c = false -> Rgtb x c' = false.
Proof. intros H E; apply Rgtb_false in E; apply Rgtb_false; lra. Qed.

(** X7. Raising the cutoff never loses a result: when a gated routine
    returns [true] for [cutoff2], it returns the same flag, value and
    gradients for every larger cutoff. *)
Theorem wider_cutoff_keeps_result ids pos box cutoff2 cutoff2' fresh pv derivs :
  cutoff2 <= cutoff2' ->
  (returned (conditionally_calc_squared_distance_and_derivatives
               ids pos box cutoff2 pv derivs) = true ->
   conditionally_calc_squared_distance_and_derivatives ids pos box cutoff2' pv derivs =
   conditionally_calc_squared_distance_and_derivatives ids pos box cutoff2 pv derivs) /\
  (returned (conditionally_calc_distance_and_derivatives
               ids pos box cutoff2 pv derivs) = true ->
   conditionally_calc_distance_and_derivatives ids pos box cutoff2' pv derivs =
   conditionally_calc_distance_and_derivatives ids pos box cutoff2 pv derivs) /\
  (returned (conditionally_calc_angle_and_derivatives VERYSMALL_F
               ids pos box cutoff2 fresh pv derivs) = true ->
   conditionally_calc_angle_and_derivatives VERYSMALL_F
     ids pos box cutoff2' fresh pv derivs =
   conditionally_calc_angle_and_derivatives VERYSMALL_F
     ids pos box cutoff2 fresh pv derivs).
Proof.
  intros Hc; rewrite !squared_distance_unfold, !distance_unfold, !angle_unfold.
  cbv zeta; repeat split.
  - destruct (Rgtb _ cutoff2) eqn:E; unfold returned; cbn [fst]; [easy|].
    intros _; rewrite (Rgtb_wider _ _ _ Hc E); reflexivity.
  - destruct (Rgtb _ cutoff2) eqn:E; unfold returned; cbn [fst]; [easy|].
    intros _; rewrite (Rgtb_wider _ _ _ Hc E); reflexivity.
  - destruct (Rgtb (norm2 (subtract_min_image_vectors
                             [id_at ids 2; id_at ids 0] pos box)) cutoff2) eqn:E0;
      [unfold returned; cbn [orb fst]; easy|].
    destruct (Rgtb (norm2 (subtract_min_image_vectors
                             [id_at ids 2; id_at ids 1] pos box)) cutoff2) eqn:E1;
      [unfold returned; cbn [orb fst]; easy|].
    intros _.
    rewrite (Rgtb_wider _ _ _ Hc E0), (Rgtb_wider _ _ _ Hc E1); reflexivity.
Qed.

(** X8. The squared distance is never negative, so with a negative cutoff
    the three gated distance and angle routines return [false] on every
    input. *)
Theorem negative_cutoff_rejects ids pos box cutoff2 fresh pv derivs :
  cutoff2 < 0 ->
  returned (conditionally_calc_squared_distance_and_derivatives
              ids pos box cutoff2 pv derivs) = false /\
  returned (conditionally_calc_distance_and_derivatives
              ids pos box cutoff2 pv derivs) = false /\
  conditionally_calc_angle_and_derivatives VERYSMALL_F
    ids pos box cutoff2 fresh pv derivs = (false, pv, derivs).
Proof.
  intros Hc; rewrite squared_distance_unfold, distance_unfold, angle_unfold.
  cbv zeta.
  assert (E : forall v, Rgtb (norm2 v) cutoff2 = true)
    by (intros v; apply Rgtb_true; pose proof (norm2_nonneg v); lra).
  rewrite !E; repeat split.
Qed.

End Cutoff.

Lemma unit_vector_algebra a b c r :
  r <> 0 -> a * a + b * b + c * c = r * r ->
  (/ 2 * (2 * a) / r) * (/ 2 * (2 * a) / r)
  + (/ 2 * (2 * b) / r) * (/ 2 * (2 * b) / r)
  + (/ 2 * (2 * c) / r) * (/ 2 * (2 * c) / r) = 1 /\
  (/ 2 * (2 * a) / r) * a + (/ 2 * (2 * b) / r) * b + (/ 2 * (2 * c) / r) * c = r.
Proof.
  intros Hr H; split.
  - transitivity ((a * a + b * b + c * c) / (r * r)); [field; exact Hr|].
    rewrite H; field; exact Hr.
  - transitivity ((a * a + b * b + c * c) / r); [field; exact Hr|].
    rewrite H; field; exact Hr.
Qed.

(** X9. For a pair in range whose particles do not coincide, the gradient
    stored by the distance routine is a unit vector, and its scalar product
    with the displacement is the distance. *)
Theorem distance_gradient_is_unit ids pos box cutoff2 pv derivs :
  let delta := subtract_min_image_vectors ids pos box in
  let di := conditionally_calc_distance_and_derivatives
              ids pos box cutoff2 pv derivs in
  norm2 delta <> 0 -> norm2 delta <= cutoff2 -> (0 < length derivs)%nat ->
  norm2 (derivs_of di !!! 0%nat) = 1 /\
  dot_product (derivs_of di !!! 0%nat) delta = param_of di.
Proof.
  intros delta di N C L; subst di.
  rewrite distance_unfold; cbv zeta; fold delta.
  apply Rgtb_false in C; rewrite C; unfold derivs_of, param_of; cbn [fst snd].
  rewrite !first_after_store by (rewrite ?length_insert; exact L).
  assert (Hr : sqrt (norm2 delta) <> 0).
  { apply Rgt_not_eq, sqrt_lt_R0; pose proof (norm2_nonneg delta); lra. }
  assert (Hs : c0 delta * c0 delta + c1 delta * c1 delta + c2 delta * c2 delta =
               sqrt (norm2 delta) * sqrt (norm2 delta))
    by (rewrite sqrt_sqrt by apply norm2_nonneg; reflexivity).
  rewrite dot_product_spec, literal_half.
  unfold norm2 at 1; unfold scale, tabulate3; cbn [idx c0 c1 c2].
  apply unit_vector_algebra; assumption.
Qed.

(** X10. A particle paired with itself, in a box whose half-lengths are not
    negative, has squared distance and distance zero; the gated
    squared-distance routine reports it in range for every cutoff that is
    not negative, with the zero vector as gradient. *)
Theorem coincident_pair a pos box cutoff2 pv derivs :
  (forall i, (i < 3)%nat -> 0 <= idx box i) -> 0 <= cutoff2 ->
  calc_squared_distance [a; a] pos box = 0 /\
  calc_distance [a; a] pos box = 0 /\
  conditionally_calc_squared_distance_and_derivatives [a; a] pos box cutoff2 pv derivs =
  (true, 0, <[0%nat := Vec3 0 0 0]> derivs).
Proof.
  intros Hbox Hc.
  assert (E : subtract_min_image_vectors [a; a] pos box = Vec3 0 0 0).
  { rewrite subtract_min_image_vectors_no_wrap.
    - apply vec3_ext; cbn; ring.
    - intros i Hi; specialize (Hbox i Hi); cbn [id_at nth]; lra. }
  assert (N : norm2 (Vec3 0 0 0) = 0) by (unfold norm2; cbn; ring).
  repeat split.
  - rewrite calc_squared_distance_spec, E; exact N.
  - unfold calc_distance; rewrite calc_squared_distance_spec, E, N; apply sqrt_0.
  - rewrite squared_distance_unfold; cbv zeta; rewrite E, N.
    apply Rgtb_false in Hc; rewrite Hc.
    do 2 f_equal; apply vec3_ext; cbn; ring.
Qed.

(** ** The angle family *)

Section AngleFamily.

Variable VERYSMALL_F : R.
Variable MAXFLOAT : R.

Lemma intermediates_unfold ids pos box cutoff2 raw_20 raw_21
    dd20 dd21 derivs pv rr_20 rr_21 :
  conditionally_calc_angle_and_intermediates VERYSMALL_F
    ids pos box cutoff2 raw_20 raw_21 dd20 dd21 derivs pv rr_20 rr_21 =
  let d20 := subtract_min_image_vectors [id_at ids 2; id_at ids 0] pos box in
  let d21 := subtract_min_image_vectors [id_at ids 2; id_at ids 1] pos box in
  let dd20' := if Rgtb (norm2 d20) cutoff2 then dd20
               else <[0%nat := scale 2 d20]> dd20 in
  let dd21' := if Rgtb (norm2 d21) cutoff2 then dd21
               else <[0%nat := scale 2 d21]> dd21 in
  if Rgtb (norm2 d20) cutoff2 || Rgtb (norm2 d21) cutoff2 then
    AngleIntermediates false dd20' dd21' derivs pv rr_20 rr_21
  else
    let r20 := sqrt (norm2 d20) in
    let r21 := sqrt (norm2 d21) in
    let cos_theta :=
      check_cos VERYSMALL_F
        (dot_product (dd20' !!! 0%nat) (dd21' !!! 0%nat) / (4 * r20 * r21)) in
    let sin_theta := sin (acos cos_theta) in
    let rr_01_1 := 1 / (r20 * r21 * sin_theta) in
    let rr_00c := cos_theta / (r20 * r20 * sin_theta) in
    let rr_11c := cos_theta / (r21 * r21 * sin_theta) in
    AngleIntermediates true dd20' dd21'
      (<[1%nat := tabulate3 (fun i =>
           0.5 * (idx (dd20' !!! 0%nat) i * rr_01_1
                  - rr_11c * idx (dd21' !!! 0%nat) i))]>
         (<[0%nat := tabulate3 (fun i =>
              0.5 * (idx (dd21' !!! 0%nat) i * rr_01_1
                     - rr_00c * idx (dd20' !!! 0%nat) i))]>
            derivs))
      (acos cos_theta * DEGREES_PER_RADIAN) r20 r21.
Proof.
  unfold conditionally_calc_angle_and_intermediates.
  rewrite !squared_distance_unfold; cbv zeta.
  destruct (Rgtb _ cutoff2), (Rgtb _ cutoff2); reflexivity.
Qed.

(** X11. Given intermediate buffers with room for one gradient each, the
    intermediates variant of the angle routine returns the flag, the value
    and the gradients of [conditionally_calc_angle_and_derivatives]; on
    success the two distances it hands back are the vertex distances of
    [calc_distance] and the two intermediate buffers start with twice the
    displacements. *)
Theorem intermediates_agree_with_angle ids pos box cutoff2 fresh raw_20 raw_21
    dd20 dd21 derivs pv rr_20 rr_21 :
  (0 < length dd20)%nat -> (0 < length dd21)%nat ->
  let o := conditionally_calc_angle_and_derivatives VERYSMALL_F
             ids pos box cutoff2 fresh pv derivs in
  let s := conditionally_calc_angle_and_intermediates VERYSMALL_F
             ids pos box cutoff2 raw_20 raw_21 dd20 dd21 derivs pv rr_20 rr_21 in
  within_cutoff s = returned o /\
  param_val_after s = param_of o /\
  derivatives_after s = derivs_of o /\
  (returned o = true ->
   rr_20_after s = calc_distance [id_at ids 2; id_at ids 0] pos box /\
   rr_21_after s = calc_distance [id_at ids 2; id_at ids 1] pos box /\
   dist_derivs_20_after s !!! 0%nat =
     scale 2 (subtract_min_image_vectors [id_at ids 2; id_at ids 0] pos box) /\
   dist_derivs_21_after s !!! 0%nat =
     scale 2 (subtract_min_image_vectors [id_at ids 2; id_at ids 1] pos box)).
Proof.
  intros L20 L21 o s; subst o s; unfold calc_distance.
  rewrite intermediates_unfold, angle_unfold, !calc_squared_distance_spec.
  cbv zeta.
  destruct (Rgtb _ cutoff2), (Rgtb _ cutoff2);
    unfold returned, param_of, derivs_of;
    cbn [orb fst snd within_cutoff param_val_after derivatives_after
         rr_20_after rr_21_after dist_derivs_20_after dist_derivs_21_after];
    rewrite ?first_after_store by assumption;
    repeat split; intros; easy.
Qed.

(** X12. When the intermediates variant returns [false], the value, the
    gradients and the two distances are the ones it was given, but an
    intermediate buffer whose own pair is within the cutoff has already been
    overwritten with twice that pair's displacement. *)
Theorem intermediates_on_failure ids pos box cutoff2 raw_20 raw_21
    dd20 dd21 derivs pv rr_20 rr_21 :
  let d20 := subtract_min_image_vectors [id_at ids 2; id_at ids 0] pos box in
  let d21 := subtract_min_image_vectors [id_at ids 2; id_at ids 1] pos box in
  let s := conditionally_calc_angle_and_intermediates VERYSMALL_F
             ids pos box cutoff2 raw_20 raw_21 dd20 dd21 derivs pv rr_20 rr_21 in
  within_cutoff s = false ->
  param_val_after s = pv /\ derivatives_after s = derivs /\
  rr_20_after s = rr_20 /\ rr_21_after s = rr_21 /\
  (norm2 d20 > cutoff2 -> dist_derivs_20_after s = dd20) /\
  (norm2 d20 <= cutoff2 -> dist_derivs_20_after s = <[0%nat := scale 2 d20]> dd20) /\
  (norm2 d21 > cutoff2 -> dist_derivs_21_after s = dd21) /\
  (norm2 d21 <= cutoff2 -> dist_derivs_21_after s = <[0%nat := scale 2 d21]> dd21).
Proof.
  intros d20 d21 s; subst s.
  rewrite intermediates_unfold; cbv zeta; fold d20 d21.
  destruct (Rgtb (norm2 d20) cutoff2) eqn:E0, (Rgtb (norm2 d21) cutoff2) eqn:E1;
    cbn [orb within_cutoff param_val_after derivatives_after
         rr_20_after rr_21_after dist_derivs_20_after dist_derivs_21_after];
    intros F; try discriminate F;
    try apply Rgtb_true in E0; try apply Rgtb_false in E0;
    try apply Rgtb_true in E1; try apply Rgtb_false in E1;
    repeat split; intros; try reflexivity; lra.
Qed.

(** X13. With both squared vertex distances at most [MAXFLOAT],
    [calc_angle] returns the value that the derivative variant stores when
    it returns [true], whatever the uninitialised storage held. *)
Theorem calc_angle_agrees_with_gated ids pos box cutoff2 fresh fresh' pv derivs :
  let o := conditionally_calc_angle_and_derivatives VERYSMALL_F
             ids pos box cutoff2 fresh pv derivs in
  norm2 (subtract_min_image_vectors [id_at ids 2; id_at ids 0] pos box) <= MAXFLOAT ->
  norm2 (subtract_min_image_vectors [id_at ids 2; id_at ids 1] pos box) <= MAXFLOAT ->
  returned o = true ->
  calc_angle VERYSMALL_F MAXFLOAT ids pos box fresh' = param_of o.
Proof.
  intros o M20 M21; subst o; rewrite angle_unfold; cbv zeta.
  unfold calc_angle; rewrite !squared_distance_in_range by assumption.
  destruct (Rgtb _ cutoff2), (Rgtb _ cutoff2);
    unfold returned, param_of; cbn [orb fst snd]; intros F; try discriminate F.
  reflexivity.
Qed.

End AngleFamily.

Lemma dot_product_comm a b : dot_product a b = dot_product b a.
Proof. rewrite !dot_product_spec; ring. Qed.

Lemma dot_product_scale2 a b :
  dot_product (scale 2 a) (scale 2 b) = 4 * dot_product a b.
Proof. rewrite !dot_product_spec; unfold scale; cbn [c0 c1 c2]; ring. Qed.

(** The squared scalar product is at most the product of the squared
    lengths. *)
Lemma dot_product_bound a b :
  dot_product a b * dot_product a b <= norm2 a * norm2 b.
Proof.
  rewrite dot_product_spec; unfold norm2.
  destruct a as [a0 a1 a2], b as [b0 b1 b2]; cbn [c0 c1 c2].
  pose proof (Rle_0_sqr (a0 * b1 - a1 * b0)) as H1.
  pose proof (Rle_0_sqr (a0 * b2 - a2 * b0)) as H2.
  pose proof (Rle_0_sqr (a1 * b2 - a2 * b1)) as H3.
  unfold Rsqr in H1, H2, H3.
  assert (E : (a0 * a0 + a1 * a1 + a2 * a2) * (b0 * b0 + b1 * b1 + b2 * b2)
              - (a0 * b0 + a1 * b1 + a2 * b2) * (a0 * b0 + a1 * b1 + a2 * b2) =
              (a0 * b1 - a1 * b0) * (a0 * b1 - a1 * b0)
              + (a0 * b2 - a2 * b0) * (a0 * b2 - a2 * b0)
              + (a1 * b2 - a2 * b1) * (a1 * b2 - a2 * b1)) by ring.
  lra.
Qed.

(** The cosine of the angle between two vectors that are not zero, as the
    angle routines form it before clamping, lies in [[-1, 1]]. *)
Lemma raw_cosine_range d20 d21 :
  norm2 d20 <> 0 -> norm2 d21 <> 0 ->
  dot_product (scale 2 d20) (scale 2 d21)
    / (4 * sqrt (norm2 d20) * sqrt (norm2 d21)) =
  dot_product d20 d21 / (sqrt (norm2 d20) * sqrt (norm2 d21)) /\
  -1 <= dot_product d20 d21 / (sqrt (norm2 d20) * sqrt (norm2 d21)) <= 1.
Proof.
  intros N20 N21.
  pose proof (norm2_nonneg d20) as P20; pose proof (norm2_nonneg d21) as P21.
  assert (R20 : 0 < sqrt (norm2 d20)) by (apply sqrt_lt_R0; lra).
  assert (R21 : 0 < sqrt (norm2 d21)) by (apply sqrt_lt_R0; lra).
  pose proof (sqrt_sqrt _ P20) as S20; pose proof (sqrt_sqrt _ P21) as S21.
  pose proof (dot_product_bound d20 d21) as B.
  rewrite dot_product_scale2.
  set (p := dot_product d20 d21) in *.
  set (r := sqrt (norm2 d20)) in *; set (q := sqrt (norm2 d21)) in *.
  assert (Hrq : 0 < r * q) by (apply Rmult_lt_0_compat; assumption).
  assert (Bp : p * p <= (r * q) * (r * q)).
  { replace (r * q * (r * q)) with ((r * r) * (q * q)) by ring.
    rewrite S20, S21; exact B. }
  split; [field; split; lra|].
  assert (- (r * q) <= p <= r * q) by nra.
  split.
  - apply Rmult_le_reg_r with (r * q); [exact Hrq|].
    unfold Rdiv; rewrite Rmult_assoc, Rinv_l by lra; lra.
  - apply Rmult_le_reg_r with (r * q); [exact Hrq|].
    unfold Rdiv; rewrite Rmult_assoc, Rinv_l by lra; lra.
Qed.

Section Safeguards.

Variable VERYSMALL_F : R.
Hypothesis epsilon_small : 0 < VERYSMALL_F <= 1.

(** X14. [check_cos] is the identity on [[-1 + VERYSMALL_F, 1 - VERYSMALL_F]],
    maps every number into that interval, is monotone and idempotent, and
    moves a cosine taken from [[-1, 1]] by at most [VERYSMALL_F]. *)
Theorem check_cos_is_a_clamp c c' :
  (-1 + VERYSMALL_F <= c <= 1 - VERYSMALL_F -> check_cos VERYSMALL_F c = c) /\
  -1 + VERYSMALL_F <= check_cos VERYSMALL_F c <= 1 - VERYSMALL_F /\
  (c <= c' -> check_cos VERYSMALL_F c <= check_cos VERYSMALL_F c') /\
  check_cos VERYSMALL_F (check_cos VERYSMALL_F c) = check_cos VERYSMALL_F c /\
  (-1 <= c <= 1 -> Rabs (check_cos VERYSMALL_F c - c) <= VERYSMALL_F).
Proof.
  repeat split.
  - intros H; apply check_cos_id; assumption.
  - apply check_cos_range; exact epsilon_small.
  - apply check_cos_range; exact epsilon_small.
  - intros H; unfold check_cos; cbv zeta; repeat cmp_cases; lra.
  - apply check_cos_id; try assumption.
    apply check_cos_range; exact epsilon_small.
  - intros H; unfold check_cos; cbv zeta; repeat cmp_cases;
      unfold Rabs; destruct (Rcase_abs _); lra.
Qed.

(** X15. [check_sine] keeps the sign of its argument, leaves zero and every
    number of magnitude at least [VERYSMALL_F] as they are, and pushes every
    other number to magnitude [VERYSMALL_F]: its result is zero only for a
    zero argument. *)
Theorem check_sine_keeps_away_from_zero s :
  (Rabs s >= VERYSMALL_F -> check_sine VERYSMALL_F s = s) /\
  check_sine VERYSMALL_F 0 = 0 /\
  (0 < s < VERYSMALL_F -> check_sine VERYSMALL_F s = VERYSMALL_F) /\
  (- VERYSMALL_F < s < 0 -> check_sine VERYSMALL_F s = - VERYSMALL_F) /\
  (s <> 0 -> VERYSMALL_F <= Rabs (check_sine VERYSMALL_F s)) /\
  (check_sine VERYSMALL_F s = 0 <-> s = 0).
Proof.
  assert (Cases : forall x,
    (0 < x < VERYSMALL_F -> check_sine VERYSMALL_F x = VERYSMALL_F) /\
    (- VERYSMALL_F < x < 0 -> check_sine VERYSMALL_F x = - VERYSMALL_F) /\
    (x = 0 \/ x <= - VERYSMALL_F \/ VERYSMALL_F <= x -> check_sine VERYSMALL_F x = x)).
  { intros x; unfold check_sine; cbv zeta.
    destruct (Rltb x 0) eqn:E1, (Rgtb x (- VERYSMALL_F)) eqn:E2; cbn [andb];
      try apply Rltb_true in E1; try apply Rltb_false in E1;
      try apply Rgtb_true in E2; try apply Rgtb_false in E2;
      match goal with
      | |- context [Rgtb ?u 0 && Rltb ?u ?v] =>
          destruct (Rgtb u 0) eqn:E3, (Rltb u v) eqn:E4; cbn [andb];
          try apply Rgtb_true in E3; try apply Rgtb_false in E3;
          try apply Rltb_true in E4; try apply Rltb_false in E4
      end; repeat split; intros; lra. }
  destruct (Cases s) as (Cp & Cn & Ci); destruct (Cases 0) as (_ & _ & C0).
  repeat split.
  - intros H; apply Ci; right.
    revert H; unfold Rabs; destruct (Rcase_abs s); intros; lra.
  - apply C0; left; reflexivity.
  - exact Cp.
  - exact Cn.
  - intros Hs.
    destruct (Rle_dec VERYSMALL_F s);
      [rewrite Ci by lra; unfold Rabs; destruct (Rcase_abs s); lra|].
    destruct (Rle_dec s (- VERYSMALL_F));
      [rewrite Ci by lra; unfold Rabs; destruct (Rcase_abs s); lra|].
    destruct (Rlt_dec 0 s).
    + rewrite Cp by lra; unfold Rabs; destruct (Rcase_abs _); lra.
    + rewrite Cn by lra; unfold Rabs; destruct (Rcase_abs _); lra.
  - intros H.
    destruct (Req_dec s 0) as [E|E]; [exact E|exfalso].
    destruct (Rle_dec VERYSMALL_F s); [rewrite Ci in H by lra; lra|].
    destruct (Rle_dec s (- VERYSMALL_F)); [rewrite Ci in H by lra; lra|].
    destruct (Rlt_dec 0 s); [rewrite Cp in H by lra | rewrite Cn in H by lra]; lra.
  - intros ->; apply C0; left; reflexivity.
Qed.

End Safeguards.

Lemma end_gradient_along_bond (a b : vec3) (A B : R) :
  dot_product
    (tabulate3 (fun i => / 2 * (idx (scale 2 b) i * A - B * idx (scale 2 a) i))) a =
  dot_product a b * A - B * norm2 a.
Proof.
  rewrite !dot_product_spec; unfold norm2, scale, tabulate3; cbn [idx c0 c1 c2]; field.
Qed.

Lemma bond_terms_cancel p r q s n m :
  r <> 0 -> q <> 0 -> s <> 0 -> n = r * r -> m = q * q ->
  p * (1 / (r * q * s)) - p / (r * q) / (r * r * s) * n = 0 /\
  p * (1 / (r * q * s)) - p / (r * q) / (q * q * s) * m = 0.
Proof. intros Hr Hq Hs -> ->; split; field; repeat split; assumption. Qed.

Section AngleGeometry.

Variable VERYSMALL_F : R.
Hypothesis epsilon_small : 0 < VERYSMALL_F <= 1.

(** X16. For three particles in range with nonzero vertex distances, the
    value stored by the angle routine is the arccosine, in degrees, of a
    number within [VERYSMALL_F] of the true cosine of the angle between the
    two minimum-image bond vectors; that true cosine lies in [[-1, 1]]. *)
Theorem angle_cosine_error ids pos box cutoff2 fresh pv derivs :
  let d20 := subtract_min_image_vectors [id_at ids 2; id_at ids 0] pos box in
  let d21 := subtract_min_image_vectors [id_at ids 2; id_at ids 1] pos box in
  let o := conditionally_calc_angle_and_derivatives VERYSMALL_F
             ids pos box cutoff2 fresh pv derivs in
  let true_cosine := dot_product d20 d21 / (sqrt (norm2 d20) * sqrt (norm2 d21)) in
  norm2 d20 <> 0 -> norm2 d21 <> 0 ->
  norm2 d20 <= cutoff2 -> norm2 d21 <= cutoff2 ->
  -1 <= true_cosine <= 1 /\
  exists c, Rabs (c - true_cosine) <= VERYSMALL_F /\
            param_of o = acos c * DEGREES_PER_RADIAN.
Proof.
  intros d20 d21 o true_cosine N20 N21 C20 C21; subst o.
  destruct (raw_cosine_range d20 d21 N20 N21) as [E B]; fold true_cosine in E, B.
  split; [exact B|].
  rewrite angle_unfold; cbv zeta; fold d20 d21.
  apply Rgtb_false in C20, C21; rewrite C20, C21; cbn [orb].
  unfold param_of; cbn [fst snd]; rewrite E.
  exists (check_cos VERYSMALL_F true_cosine); split; [|reflexivity].
  unfold check_cos; cbv zeta; repeat cmp_cases;
    unfold Rabs; destruct (Rcase_abs _); lra.
Qed.

(** X17. For three particles in range with nonzero vertex distances whose
    true cosine needs no clamping, the stored value is the arccosine of the
    true cosine in degrees, and each of the two stored gradients is
    perpendicular to the bond from the vertex to its own end particle. *)
Theorem angle_gradients_perpendicular_to_bonds ids pos box cutoff2 fresh pv derivs :
  let d20 := subtract_min_image_vectors [id_at ids 2; id_at ids 0] pos box in
  let d21 := subtract_min_image_vectors [id_at ids 2; id_at ids 1] pos box in
  let o := conditionally_calc_angle_and_derivatives VERYSMALL_F
             ids pos box cutoff2 fresh pv derivs in
  let true_cosine := dot_product d20 d21 / (sqrt (norm2 d20) * sqrt (norm2 d21)) in
  norm2 d20 <> 0 -> norm2 d21 <> 0 ->
  norm2 d20 <= cutoff2 -> norm2 d21 <= cutoff2 ->
  -1 + VERYSMALL_F <= true_cosine <= 1 - VERYSMALL_F ->
  (2 <= length derivs)%nat ->
  param_of o = acos true_cosine * DEGREES_PER_RADIAN /\
  dot_product (derivs_of o !!! 0%nat) d20 = 0 /\
  dot_product (derivs_of o !!! 1%nat) d21 = 0.
Proof.
  intros d20 d21 o true_cosine N20 N21 C20 C21 U L; subst o.
  destruct (raw_cosine_range d20 d21 N20 N21) as [E _]; fold true_cosine in E.
  pose proof (norm2_nonneg d20) as P20; pose proof (norm2_nonneg d21) as P21.
  assert (R20 : sqrt (norm2 d20) <> 0) by (apply Rgt_not_eq, sqrt_lt_R0; lra).
  assert (R21 : sqrt (norm2 d21) <> 0) by (apply Rgt_not_eq, sqrt_lt_R0; lra).
  assert (S : sin (acos true_cosine) <> 0).
  { pose proof (sin_acos_check_cos_lower VERYSMALL_F epsilon_small true_cosine)
      as (_ & Hp & Hl).
    rewrite (check_cos_id VERYSMALL_F _ U) in Hl; lra. }
  rewrite angle_unfold; cbv zeta; fold d20 d21.
  apply Rgtb_false in C20, C21; rewrite C20, C21; cbn [orb].
  unfold param_of, derivs_of; cbn [fst snd].
  rewrite E, (check_cos_id VERYSMALL_F _ U).
  destruct derivs as [|g0 [|g1 rest]]; cbn [length] in L; try lia.
  cbn [insert list_insert lookup_total list_lookup_total].
  rewrite literal_half, !end_gradient_along_bond.
  rewrite (dot_product_comm d21 d20).
  destruct (bond_terms_cancel (dot_product d20 d21) (sqrt (norm2 d20))
              (sqrt (norm2 d21)) (sin (acos true_cosine))
              (norm2 d20) (norm2 d21) R20 R21 S
              (eq_sym (sqrt_sqrt _ P20)) (eq_sym (sqrt_sqrt _ P21))) as [H0 H1].
  repeat split; assumption.
Qed.

End AngleGeometry.

Section AngleSymmetry.

Variable VERYSMALL_F : R.

(** X18. Exchanging the two end particles of an angle keeps the returned
    flag and the value and exchanges the two stored gradients. *)
Theorem angle_end_swap a b v pos box cutoff2 fresh fresh' pv derivs :
  let o := conditionally_calc_angle_and_derivatives VERYSMALL_F
             [a; b; v] pos box cutoff2 fresh pv derivs in
  let o' := conditionally_calc_angle_and_derivatives VERYSMALL_F
              [b; a; v] pos box cutoff2 fresh' pv derivs in
  returned o' = returned o /\
  param_of o' = param_of o /\
  (returned o = true -> (2 <= length derivs)%nat ->
   derivs_of o' !!! 0%nat = derivs_of o !!! 1%nat /\
   derivs_of o' !!! 1%nat = derivs_of o !!! 0%nat).
Proof.
  intros o o'; subst o o'; rewrite !angle_unfold; cbn [id_at nth]; cbv zeta.
  generalize (subtract_min_image_vectors [v; a] pos box).
  generalize (subtract_min_image_vectors [v; b] pos box).
  intros db da.
  assert (E : dot_product (scale 2 db) (scale 2 da)
                / (4 * sqrt (norm2 db) * sqrt (norm2 da)) =
              dot_product (scale 2 da) (scale 2 db)
                / (4 * sqrt (norm2 da) * sqrt (norm2 db)))
    by (rewrite (dot_product_comm (scale 2 db)); f_equal; ring).
  rewrite E.
  replace (sqrt (norm2 db) * sqrt (norm2 da)) with (sqrt (norm2 da) * sqrt (norm2 db))
    by ring.
  destruct (Rgtb (norm2 da) cutoff2), (Rgtb (norm2 db) cutoff2);
    unfold returned, param_of, derivs_of; cbn [orb fst snd];
    (split; [reflexivity | split; [reflexivity|]]);
    intros F L; try discriminate F.
  destruct derivs as [|g0 [|g1 rest]]; cbn [length] in L; try lia.
  split; reflexivity.
Qed.

End AngleSymmetry.

(** ** The dihedral family *)

Lemma cross_product_orthogonal a b :
  dot_product (cross_product a b) a = 0 /\ dot_product (cross_product a b) b = 0.
Proof.
  rewrite !dot_product_spec; unfold cross_product; cbn [idx c0 c1 c2].
  split; ring.
Qed.

(** X19. [cross_product a b] is perpendicular to [a] and to [b], changes
    sign when its arguments are exchanged, and its squared length is
    [|a|^2 |b|^2 - (a . b)^2]; in particular it vanishes for parallel
    arguments such as [a] and [a]. *)
Theorem cross_product_laws a b :
  dot_product (cross_product a b) a = 0 /\
  dot_product (cross_product a b) b = 0 /\
  cross_product b a = vopp (cross_product a b) /\
  norm2 (cross_product a b) =
    norm2 a * norm2 b - dot_product a b * dot_product a b /\
  cross_product a a = Vec3 0 0 0.
Proof.
  destruct (cross_product_orthogonal a b) as [Ha Hb].
  repeat split; try assumption.
  - unfold cross_product, vopp; apply vec3_ext; cbn [idx c0 c1 c2]; ring.
  - rewrite dot_product_spec; unfold cross_product, norm2; cbn [idx c0 c1 c2]; ring.
  - unfold cross_product; apply vec3_ext; cbn [idx c0 c1 c2]; ring.
Qed.

Lemma scaled_normal_orthogonal (u v w : vec3) (k : R) :
  dot_product (cross_product u v) w = 0 ->
  dot_product (tabulate3 (fun i => idx (cross_product u v) i / k)) w = 0 /\
  dot_product (tabulate3 (fun i => (- idx (cross_product u v) i) / k)) w = 0.
Proof.
  rewrite !dot_product_spec; unfold tabulate3, Rdiv; cbn [idx c0 c1 c2].
  generalize (cross_product u v); intros n H; split.
  - transitivity ((c0 n * c0 w + c1 n * c1 w + c2 n * c2 w) * / k); [ring|].
    rewrite H; ring.
  - transitivity (- (c0 n * c0 w + c1 n * c1 w + c2 n * c2 w) * / k); [ring|].
    rewrite H; ring.
Qed.

Lemma middle_gradient_orthogonal (n p w : vec3) (k l f h : R) :
  dot_product n w = 0 -> dot_product p w = 0 ->
  dot_product
    (tabulate3 (fun i => (- (idx n i / k)) * f - (- idx p i) / l * h)) w = 0.
Proof.
  rewrite !dot_product_spec; unfold tabulate3, Rdiv; cbn [idx c0 c1 c2].
  intros Hn Hp.
  transitivity (- (c0 n * c0 w + c1 n * c1 w + c2 n * c2 w) * / k * f
                + (c0 p * c0 w + c1 p * c1 w + c2 p * c2 w) * / l * h); [ring|].
  rewrite Hn, Hp; ring.
Qed.

Section DihedralGeometry.

Variable VERYSMALL_F : R.

(** X20. For four particles whose two plane normals are not zero, the first
    of the three gradients stored by the dihedral routine is perpendicular
    to the two displacements that span the first plane, the second to the
    two that span the second plane, and all three are perpendicular to the
    central bond. *)
Theorem dihedral_gradients_perpendicular ids pos box cutoff2 pv derivs :
  let disp03 := subtract_min_image_vectors [id_at ids 3; id_at ids 0] pos box in
  let disp23 := subtract_min_image_vectors [id_at ids 3; id_at ids 2] pos box in
  let disp12 := subtract_min_image_vectors [id_at ids 2; id_at ids 1] pos box in
  let g := derivs_of (conditionally_calc_dihedral_and_derivatives VERYSMALL_F
                        ids pos box cutoff2 pv derivs) in
  (3 <= length derivs)%nat ->
  norm2 (cross_product disp03 disp23) <> 0 ->
  norm2 (cross_product disp12 disp23) <> 0 ->
  dot_product (g !!! 0%nat) disp03 = 0 /\
  dot_product (g !!! 0%nat) disp23 = 0 /\
  dot_product (g !!! 1%nat) disp12 = 0 /\
  dot_product (g !!! 1%nat) disp23 = 0 /\
  dot_product (g !!! 2%nat) disp23 = 0.
Proof.
  intros disp03 disp23 disp12 g L _ _; subst g.
  unfold conditionally_calc_dihedral_and_derivatives, derivs_of; cbn [snd]; cbv zeta.
  fold disp03 disp23 disp12.
  destruct derivs as [|g0 [|g1 [|g2 rest]]]; cbn [length] in L; try lia.
  cbn [insert list_insert lookup_total list_lookup_total].
  destruct (cross_product_orthogonal disp03 disp23) as [B1 B2].
  destruct (cross_product_orthogonal disp12 disp23) as [C1 C2].
  repeat split.
  - apply scaled_normal_orthogonal, B1.
  - apply scaled_normal_orthogonal, B2.
  - apply scaled_normal_orthogonal, C1.
  - apply scaled_normal_orthogonal, C2.
  - apply middle_gradient_orthogonal; assumption.
Qed.

Hypothesis epsilon_small : 0 < VERYSMALL_F <= 1.

(** X21. Because of the clamp the dihedral is never exactly 0 or 180
    degrees: for four particles whose two plane normals are not zero, the
    value of [calc_dihedral] has magnitude strictly between 0 and 180, and
    the value stored by the derivative variant has magnitude strictly
    between 0 and pi. *)
Theorem dihedral_never_flat ids pos box cutoff2 pv derivs :
  let disp03 := subtract_min_image_vectors [id_at ids 3; id_at ids 0] pos box in
  let disp23 := subtract_min_image_vectors [id_at ids 3; id_at ids 2] pos box in
  let disp12 := subtract_min_image_vectors [id_at ids 2; id_at ids 1] pos box in
  norm2 (cross_product disp03 disp23) <> 0 ->
  norm2 (cross_product disp12 disp23) <> 0 ->
  0 < Rabs (calc_dihedral VERYSMALL_F ids pos box) < 180 /\
  0 < Rabs (param_of (conditionally_calc_dihedral_and_derivatives VERYSMALL_F
                        ids pos box cutoff2 pv derivs)) < PI.
Proof.
  intros disp03 disp23 disp12 _ _; clear disp03 disp23 disp12.
  assert (V : 0 < Rabs (param_of (conditionally_calc_dihedral_and_derivatives
                VERYSMALL_F ids pos box cutoff2 pv derivs)) < PI).
  { unfold conditionally_calc_dihedral_and_derivatives, param_of; cbn [fst snd].
    cbv zeta.
    match goal with
    | |- context [acos (check_cos VERYSMALL_F ?c)] =>
        pose proof (acos_check_cos_range VERYSMALL_F epsilon_small c) as H
    end.
    match goal with
    | |- context [Rltb ?s 0] => destruct (Rltb s 0)
    end; unfold Rabs; destruct (Rcase_abs _); lra. }
  split; [|exact V].
  rewrite (calc_dihedral_scales VERYSMALL_F ids pos box cutoff2 pv derivs).
  pose proof DEGREES_PER_RADIAN_pos as Hd.
  rewrite Rabs_mult, (Rabs_pos_eq DEGREES_PER_RADIAN) by lra.
  rewrite <- PI_in_degrees; split; [nra|].
  apply Rmult_lt_compat_r; lra.
Qed.

End DihedralGeometry.

Lemma norm2_zero_vector v : norm2 v = 0 -> v = Vec3 0 0 0.
Proof.
  destruct v as [a b c]; unfold norm2; cbn [c0 c1 c2]; intros H.
  pose proof (Rle_0_sqr a) as Ha; pose proof (Rle_0_sqr b) as Hb.
  pose proof (Rle_0_sqr c) as Hc; unfold Rsqr in *.
  assert (Ea : a * a = 0) by lra; assert (Eb : b * b = 0) by lra.
  assert (Ec : c * c = 0) by lra.
  apply Rmult_integral in Ea, Eb, Ec.
  replace a with 0 by (destruct Ea; auto).
  replace b with 0 by (destruct Eb; auto).
  replace c with 0 by (destruct Ec; auto).
  reflexivity.
Qed.

Lemma inverted_displacement ids pos box :
  (forall i, (i < 3)%nat -> 0 <= idx box i) ->
  subtract_min_image_vectors ids (inverted pos) box =
  vopp (subtract_min_image_vectors ids pos box).
Proof.
  intros Hbox; apply vec3_ext;
    [ pose proof (Hbox 0%nat ltac:(lia)) as H
    | pose proof (Hbox 1%nat ltac:(lia)) as H
    | pose proof (Hbox 2%nat ltac:(lia)) as H ];
    unfold subtract_min_image_vectors, tabulate3, vopp, inverted;
    cbn [idx c0 c1 c2] in *;
    rewrite <- min_image_component_opp by exact H; f_equal;
    unfold vopp; cbn [c0 c1 c2]; ring.
Qed.

Lemma cross_product_vopp a b : cross_product (vopp a) (vopp b) = cross_product a b.
Proof. unfold cross_product, vopp; apply vec3_ext; cbn [idx c0 c1 c2]; ring. Qed.

Lemma dot_product_vopp_r a b : dot_product a (vopp b) = - dot_product a b.
Proof. rewrite !dot_product_spec; unfold vopp; cbn [c0 c1 c2]; ring. Qed.

Lemma dot_product_zero_l b : dot_product (Vec3 0 0 0) b = 0.
Proof. rewrite dot_product_spec; cbn [c0 c1 c2]; ring. Qed.

Lemma cross_product_zero_r a : cross_product a (Vec3 0 0 0) = Vec3 0 0 0.
Proof. unfold cross_product; apply vec3_ext; cbn [idx c0 c1 c2]; ring. Qed.

Section DihedralHandedness.

Variable VERYSMALL_F : R.

(** X22. In a box whose half-lengths are not negative, reflecting all four
    particles through the origin, which reverses the handedness of the
    configuration, negates the value of [calc_dihedral] whenever the triple
    product of the three displacements is not zero; when it is zero and the
    two plane normals are not (a planar configuration) the value stays the
    same, the positive angle. *)
Theorem dihedral_handedness ids pos box :
  let disp03 := subtract_min_image_vectors [id_at ids 3; id_at ids 0] pos box in
  let disp23 := subtract_min_image_vectors [id_at ids 3; id_at ids 2] pos box in
  let disp12 := subtract_min_image_vectors [id_at ids 2; id_at ids 1] pos box in
  let triple := dot_product (cross_product disp03 disp23) disp12 in
  (forall i, (i < 3)%nat -> 0 <= idx box i) ->
  (triple <> 0 ->
   calc_dihedral VERYSMALL_F ids (inverted pos) box =
   - calc_dihedral VERYSMALL_F ids pos box) /\
  (triple = 0 ->
   norm2 (cross_product disp03 disp23) <> 0 ->
   norm2 (cross_product disp12 disp23) <> 0 ->
   calc_dihedral VERYSMALL_F ids (inverted pos) box =
   calc_dihedral VERYSMALL_F ids pos box /\
   0 <= calc_dihedral VERYSMALL_F ids pos box).
Proof.
  intros disp03 disp23 disp12 triple Hbox.
  unfold calc_dihedral; cbv zeta.
  rewrite !(inverted_displacement _ pos box Hbox); fold disp03 disp23 disp12.
  rewrite !cross_product_vopp, dot_product_vopp_r; fold triple.
  rewrite (dot_product_self (vopp disp23)), norm2_vopp, <- dot_product_self.
  set (pb := cross_product disp03 disp23) in *.
  set (theta := acos _ * DEGREES_PER_RADIAN).
  assert (Ht : 0 <= theta).
  { subst theta; pose proof DEGREES_PER_RADIAN_pos.
    apply Rmult_le_pos; [apply acos_bound | lra]. }
  split.
  - intros T.
    assert (Npb : norm2 pb <> 0).
    { intros Z; apply norm2_zero_vector in Z; apply T; unfold triple.
      rewrite Z; apply dot_product_zero_l. }
    assert (N23 : norm2 disp23 <> 0).
    { intros Z; apply norm2_zero_vector in Z; apply Npb.
      unfold pb; rewrite Z, cross_product_zero_r; unfold norm2; cbn; ring. }
    rewrite !dot_product_self.
    assert (P : 0 < 1 / sqrt (norm2 pb)).
    { apply Rdiv_lt_0_compat; [lra|].
      apply sqrt_lt_R0; pose proof (norm2_nonneg pb); lra. }
    assert (Q : 0 < 1 / sqrt (norm2 disp23)).
    { apply Rdiv_lt_0_compat; [lra|].
      apply sqrt_lt_R0; pose proof (norm2_nonneg disp23); lra. }
    set (p := 1 / sqrt (norm2 pb)) in *; set (q := 1 / sqrt (norm2 disp23)) in *.
    assert (PQ : 0 < p * q) by (apply Rmult_lt_0_compat; assumption).
    replace (- triple * p * q) with (- (triple * (p * q))) by ring.
    replace (triple * p * q) with (triple * (p * q)) by ring.
    destruct (Rlt_dec 0 triple) as [Tp|Tn].
    + assert (S : 0 < triple * (p * q)) by (apply Rmult_lt_0_compat; assumption).
      assert (E1 : Rgtb (- (triple * (p * q))) 0 = false) by (apply Rgtb_false; lra).
      assert (E2 : Rgtb (triple * (p * q)) 0 = true) by (apply Rgtb_true; lra).
      rewrite E1, E2; ring.
    + assert (S : 0 < (- triple) * (p * q))
        by (apply Rmult_lt_0_compat; [lra | assumption]).
      assert (E1 : Rgtb (- (triple * (p * q))) 0 = true) by (apply Rgtb_true; lra).
      assert (E2 : Rgtb (triple * (p * q)) 0 = false) by (apply Rgtb_false; lra).
      rewrite E1, E2; reflexivity.
  - intros T _ _; rewrite T.
    replace (- 0) with 0 by ring.
    match goal with
    | |- context [Rgtb ?s 0] =>
        assert (E : Rgtb s 0 = false) by (apply Rgtb_false; lra)
    end.
    rewrite E; split; [reflexivity | exact Ht].
Qed.

End DihedralHandedness.

(** ** The stored gradients are derivatives *)

Lemma with_coordinate_same pos id i x j :
  (j < 3)%nat ->
  idx (with_coordinate pos id i x id) j = if Nat.eqb j i then x else idx (pos id) j.
Proof.
  intros Hj; unfold with_coordinate; rewrite Z.eqb_refl.
  each_axis j Hj; reflexivity.
Qed.

Lemma with_coordinate_other pos id i x k :
  k <> id -> with_coordinate pos id i x k = pos k.
Proof.
  intros H; unfold with_coordinate.
  destruct (Z.eqb_spec k id); [contradiction | reflexivity].
Qed.

(** Moving one coordinate of the second particle of a pair, while the
    minimum-image step stays inactive on that axis, changes the squared
    distance as it changes the square of that one difference. *)
Lemma squared_distance_along_axis ids pos box i x :
  (i < 3)%nat -> id_at ids 0 <> id_at ids 1 ->
  - idx box i < x - idx (pos (id_at ids 0)) i < idx box i ->
  let delta := subtract_min_image_vectors ids pos box in
  calc_squared_distance ids (with_coordinate pos (id_at ids 1) i x) box =
  (x - idx (pos (id_at ids 0)) i) * (x - idx (pos (id_at ids 0)) i)
  + (norm2 delta - idx delta i * idx delta i).
Proof.
  intros Hi Hne Hx delta; subst delta.
  rewrite calc_squared_distance_spec; unfold norm2.
  change (c0 ?v) with (idx v 0); change (c1 ?v) with (idx v 1);
    change (c2 ?v) with (idx v 2).
  rewrite !subtract_min_image_vectors_at by lia.
  rewrite !with_coordinate_same by lia.
  rewrite !with_coordinate_other by exact Hne.
  each_axis i Hi; cbn [Nat.eqb];
    rewrite (min_image_component_id (x - _)) by lra; ring.
Qed.

(** The same for the first particle of the pair. *)
Lemma squared_distance_along_axis_first ids pos box i x :
  (i < 3)%nat -> id_at ids 0 <> id_at ids 1 ->
  - idx box i < idx (pos (id_at ids 1)) i - x < idx box i ->
  let delta := subtract_min_image_vectors ids pos box in
  calc_squared_distance ids (with_coordinate pos (id_at ids 0) i x) box =
  (idx (pos (id_at ids 1)) i - x) * (idx (pos (id_at ids 1)) i - x)
  + (norm2 delta - idx delta i * idx delta i).
Proof.
  intros Hi Hne Hx delta; subst delta.
  rewrite calc_squared_distance_spec; unfold norm2.
  change (c0 ?v) with (idx v 0); change (c1 ?v) with (idx v 1);
    change (c2 ?v) with (idx v 2).
  rewrite !subtract_min_image_vectors_at by lia.
  rewrite !with_coordinate_same by lia.
  rewrite !with_coordinate_other by (intros E; apply Hne; symmetry; exact E).
  each_axis i Hi; cbn [Nat.eqb];
    rewrite (min_image_component_id (_ - x)) by lra; ring.
Qed.

(** A function that is [(x - a)^2 + c] near [x0] has derivative
    [2 * (x0 - a)] there, and one that is [(b - x)^2 + c] has derivative
    [- (2 * (b - x0))]. *)
Lemma derivable_shifted_square (f : R -> R) (a c x0 w : R) :
  0 < w ->
  (forall x, Rabs (x - x0) < w -> f x = (x - a) * (x - a) + c) ->
  derivable_pt_lim f x0 (2 * (x0 - a)).
Proof.
  intros Hw Hf eps Heps.
  assert (Hd : 0 < Rmin eps w) by (apply Rmin_glb_lt; assumption).
  exists (mkposreal _ Hd); cbn [pos]; intros t Ht Hlt.
  assert (Ht1 : Rabs t < eps) by (eapply Rlt_le_trans; [exact Hlt | apply Rmin_l]).
  assert (Ht2 : Rabs t < w) by (eapply Rlt_le_trans; [exact Hlt | apply Rmin_r]).
  rewrite (Hf (x0 + t)) by (replace (x0 + t - x0) with t by ring; exact Ht2).
  rewrite (Hf x0) by (replace (x0 - x0) with 0 by ring; rewrite Rabs_R0; exact Hw).
  replace (((x0 + t - a) * (x0 + t - a) + c - ((x0 - a) * (x0 - a) + c)) / t
           - 2 * (x0 - a)) with t by (field; exact Ht).
  exact Ht1.
Qed.

Lemma derivable_reflected_square (f : R -> R) (b c x0 w : R) :
  0 < w ->
  (forall x, Rabs (x - x0) < w -> f x = (b - x) * (b - x) + c) ->
  derivable_pt_lim f x0 (- (2 * (b - x0))).
Proof.
  intros Hw Hf.
  replace (- (2 * (b - x0))) with (2 * (x0 - b)) by ring.
  apply derivable_shifted_square with (c := c) (w := w); [exact Hw|].
  intros x Hx; rewrite (Hf x Hx); ring.
Qed.

Lemma idx_scale k v i : (i < 3)%nat -> idx (scale k v) i = k * idx v i.
Proof. intros Hi; each_axis i Hi; reflexivity. Qed.

Lemma idx_tabulate3 f i : (i < 3)%nat -> idx (tabulate3 f) i = f i.
Proof. intros Hi; each_axis i Hi; reflexivity. Qed.

Lemma unwrapped_component ids pos box i :
  (i < 3)%nat ->
  - idx box i < idx (pos (id_at ids 1)) i - idx (pos (id_at ids 0)) i < idx box i ->
  idx (subtract_min_image_vectors ids pos box) i =
  idx (pos (id_at ids 1)) i - idx (pos (id_at ids 0)) i.
Proof.
  intros Hi H; rewrite subtract_min_image_vectors_at by exact Hi.
  apply min_image_component_id; lra.
Qed.

Lemma room_around x lo hi :
  lo < x < hi ->
  0 < Rmin (hi - x) (x - lo) /\
  forall y, Rabs (y - x) < Rmin (hi - x) (x - lo) -> lo < y < hi.
Proof.
  intros H; split; [apply Rmin_glb_lt; lra|].
  intros y Hy.
  pose proof (Rmin_l (hi - x) (x - lo)); pose proof (Rmin_r (hi - x) (x - lo)).
  revert Hy; unfold Rabs; destruct (Rcase_abs _); intros; lra.
Qed.

(** X23. On an axis where the minimum-image step is inactive (the raw
    difference lies strictly inside the half-length), the gradient component
    stored by the squared-distance routine is the derivative of the squared
    distance with respect to that coordinate of the second particle of the
    pair; the derivative with respect to the first particle is its
    opposite. *)
Theorem squared_distance_gradient_is_derivative ids pos box cutoff2 pv derivs i :
  let a := id_at ids 0 in
  let b := id_at ids 1 in
  let g := derivs_of (conditionally_calc_squared_distance_and_derivatives
                        ids pos box cutoff2 pv derivs) !!! 0%nat in
  (i < 3)%nat -> a <> b ->
  - idx box i < idx (pos b) i - idx (pos a) i < idx box i ->
  norm2 (subtract_min_image_vectors ids pos box) <= cutoff2 ->
  (0 < length derivs)%nat ->
  derivable_pt_lim
    (fun x => calc_squared_distance ids (with_coordinate pos b i x) box)
    (idx (pos b) i) (idx g i) /\
  derivable_pt_lim
    (fun x => calc_squared_distance ids (with_coordinate pos a i x) box)
    (idx (pos a) i) (- idx g i).
Proof.
  intros a b g Hi Hne Hraw Hc Hl; subst g.
  rewrite squared_distance_in_range by exact Hc.
  unfold derivs_of; cbn [snd]; rewrite first_after_store by exact Hl.
  rewrite idx_scale, unwrapped_component by assumption; fold a b.
  split.
  - destruct (room_around (idx (pos b) i) (idx (pos a) i - idx box i)
                (idx (pos a) i + idx box i) ltac:(lra)) as [Hw Hin].
    eapply derivable_shifted_square; [exact Hw|].
    intros x Hx; specialize (Hin x Hx).
    apply squared_distance_along_axis; [exact Hi | exact Hne | fold a; lra].
  - destruct (room_around (idx (pos a) i) (idx (pos b) i - idx box i)
                (idx (pos b) i + idx box i) ltac:(lra)) as [Hw Hin].
    eapply derivable_reflected_square; [exact Hw|].
    intros x Hx; specialize (Hin x Hx).
    apply squared_distance_along_axis_first; [exact Hi | exact Hne | fold b; lra].
Qed.

(** X24. Under the same condition, and for particles that do not coincide,
    the gradient component stored by the distance routine is the derivative
    of the distance with respect to that coordinate of the second particle
    of the pair. *)
Theorem distance_gradient_is_derivative ids pos box cutoff2 pv derivs i :
  let a := id_at ids 0 in
  let b := id_at ids 1 in
  let g := derivs_of (conditionally_calc_distance_and_derivatives
                        ids pos box cutoff2 pv derivs) !!! 0%nat in
  (i < 3)%nat -> a <> b ->
  - idx box i < idx (pos b) i - idx (pos a) i < idx box i ->
  norm2 (subtract_min_image_vectors ids pos box) <> 0 ->
  norm2 (subtract_min_image_vectors ids pos box) <= cutoff2 ->
  (0 < length derivs)%nat ->
  derivable_pt_lim
    (fun x => calc_distance ids (with_coordinate pos b i x) box)
    (idx (pos b) i) (idx g i).
Proof.
  intros a b g Hi Hne Hraw Hn Hc Hl; subst g.
  set (delta := subtract_min_image_vectors ids pos box) in *.
  assert (Hd : idx delta i = idx (pos b) i - idx (pos a) i)
    by (apply unwrapped_component; assumption).
  assert (F0 : calc_squared_distance ids
                 (with_coordinate pos b i (idx (pos b) i)) box = norm2 delta).
  { unfold b; rewrite squared_distance_along_axis by (try assumption; fold a b; lra).
    fold a b delta; rewrite Hd; ring. }
  assert (D1 : derivable_pt_lim
                 (fun x => calc_squared_distance ids (with_coordinate pos b i x) box)
                 (idx (pos b) i) (2 * idx delta i)).
  { rewrite Hd.
    destruct (room_around (idx (pos b) i) (idx (pos a) i - idx box i)
                (idx (pos a) i + idx box i) ltac:(lra)) as [Hw Hin].
    eapply derivable_shifted_square; [exact Hw|].
    intros x Hx; specialize (Hin x Hx).
    apply squared_distance_along_axis; [exact Hi | exact Hne | fold a; lra]. }
  assert (Pos : 0 < norm2 delta) by (pose proof (norm2_nonneg delta); lra).
  assert (D2 : derivable_pt_lim sqrt
                 (calc_squared_distance ids
                    (with_coordinate pos b i (idx (pos b) i)) box)
                 (/ (2 * sqrt (norm2 delta))))
    by (rewrite F0; apply derivable_pt_lim_sqrt; exact Pos).
  pose proof (derivable_pt_lim_comp _ _ _ _ _ D1 D2) as D.
  rewrite distance_unfold; cbv zeta; fold delta.
  apply Rgtb_false in Hc; rewrite Hc; unfold derivs_of; cbn [snd].
  rewrite !first_after_store by (rewrite ?length_insert; exact Hl).
  rewrite idx_tabulate3, idx_scale, literal_half by exact Hi.
  replace (/ 2 * (2 * idx delta i) / sqrt (norm2 delta))
    with (/ (2 * sqrt (norm2 delta)) * (2 * idx delta i)).
  - exact D.
  - field; apply Rgt_not_eq, sqrt_lt_R0; exact Pos.
Qed.

(** *** The angle *)

Lemma derivable_affine (m a d x0 : R) :
  derivable_pt_lim (fun x => (x - a) * m + d) x0 m.
Proof.
  intros eps Heps; exists (mkposreal 1 Rlt_0_1); intros t Ht _.
  replace (((x0 + t - a) * m + d - ((x0 - a) * m + d)) / t - m) with 0
    by (field; exact Ht).
  rewrite Rabs_R0; exact Heps.
Qed.

(** A function continuous at [x0] keeps strict bounds near [x0]. *)
Lemma continuity_keeps_bounds (f : R -> R) (x0 lo hi : R) :
  continuity_pt f x0 -> lo < f x0 < hi ->
  exists w, 0 < w /\ forall x, Rabs (x - x0) < w -> lo < f x < hi.
Proof.
  intros Hc Hb.
  assert (He : 0 < Rmin (hi - f x0) (f x0 - lo)) by (apply Rmin_glb_lt; lra).
  destruct (Hc _ He) as (w & Hw & Hf).
  exists w; split; [exact Hw|].
  intros x Hx.
  destruct (Req_dec x x0) as [->|Hne]; [exact Hb|].
  assert (Hd : Rabs (f x - f x0) < Rmin (hi - f x0) (f x0 - lo)).
  { apply (Hf x); split; [|exact Hx].
    split; [exact I | intros E; apply Hne; symmetry; exact E]. }
  pose proof (Rmin_l (hi - f x0) (f x0 - lo)).
  pose proof (Rmin_r (hi - f x0) (f x0 - lo)).
  revert Hd; unfold Rabs; destruct (Rcase_abs _); intros; lra.
Qed.

Lemma derivable_pt_lim_continuity (f : R -> R) (x0 l : R) :
  derivable_pt_lim f x0 l -> continuity_pt f x0.
Proof. intros H; apply derivable_continuous_pt; exists l; exact H. Qed.

Section CosineAlongAxis.

Variables a m C D q : R.

Lemma axis_norm2_derivative x0 :
  derivable_pt_lim (axis_norm2 a C) x0 (2 * (x0 - a)).
Proof.
  apply derivable_shifted_square with (c := C) (w := 1); [lra|].
  intros x _; reflexivity.
Qed.

Lemma axis_cosine_derivative x0 :
  0 < axis_norm2 a C x0 -> q <> 0 ->
  derivable_pt_lim (axis_cosine a m C D q) x0
    (m / (sqrt (axis_norm2 a C x0) * q)
     - axis_cosine a m C D q x0 * (x0 - a)
       / (sqrt (axis_norm2 a C x0) * sqrt (axis_norm2 a C x0))).
Proof.
  intros Hn Hq.
  assert (Hr : sqrt (axis_norm2 a C x0) <> 0) by (apply Rgt_not_eq, sqrt_lt_R0, Hn).
  pose proof (derivable_pt_lim_comp _ _ _ _ _ (axis_norm2_derivative x0)
                (derivable_pt_lim_sqrt _ Hn)) as Ds.
  pose proof (derivable_pt_lim_scal_right _ _ _ q Ds) as Dd.
  pose proof (derivable_pt_lim_div _ _ _ _ _ (derivable_affine m a D x0) Dd) as Dk.
  cbv beta in Dk; unfold comp in Dk.
  specialize (Dk ltac:(apply Rmult_integral_contrapositive_currified; assumption)).
  match type of Dk with
  | derivable_pt_lim _ _ ?l =>
      replace l with
        (m / (sqrt (axis_norm2 a C x0) * q)
         - axis_cosine a m C D q x0 * (x0 - a)
           / (sqrt (axis_norm2 a C x0) * sqrt (axis_norm2 a C x0))) in Dk
  end; [exact Dk|].
  unfold axis_cosine, axis_dot, Rsqr.
  clear Ds Dd Dk Hn.
  set (r := sqrt (axis_norm2 a C x0)) in *.
  field; split; assumption.
Qed.

Lemma axis_angle_derivative x0 :
  0 < axis_norm2 a C x0 -> q <> 0 -> -1 < axis_cosine a m C D q x0 < 1 ->
  derivable_pt_lim
    (fun x => acos (axis_cosine a m C D q x) * DEGREES_PER_RADIAN) x0
    (-1 / sqrt (1 - (axis_cosine a m C D q x0)²)
     * (m / (sqrt (axis_norm2 a C x0) * q)
        - axis_cosine a m C D q x0 * (x0 - a)
          / (sqrt (axis_norm2 a C x0) * sqrt (axis_norm2 a C x0)))
     * DEGREES_PER_RADIAN).
Proof.
  intros Hn Hq Hk.
  pose proof (derive_pt_eq_1 _ _ _ _ (derive_pt_acos _ Hk)) as Da.
  pose proof (derivable_pt_lim_comp _ _ _ _ _ (axis_cosine_derivative x0 Hn Hq) Da)
    as Dc.
  exact (derivable_pt_lim_scal_right _ _ _ DEGREES_PER_RADIAN Dc).
Qed.

End CosineAlongAxis.

Lemma subtract_unmoved ids pos box id i x :
  id_at ids 0 <> id -> id_at ids 1 <> id ->
  subtract_min_image_vectors ids (with_coordinate pos id i x) box =
  subtract_min_image_vectors ids pos box.
Proof.
  intros H0 H1; unfold subtract_min_image_vectors.
  rewrite !with_coordinate_other by assumption; reflexivity.
Qed.

Lemma norm2_along_axis ids pos box i x :
  (i < 3)%nat -> id_at ids 0 <> id_at ids 1 ->
  - idx box i < x - idx (pos (id_at ids 0)) i < idx box i ->
  let delta := subtract_min_image_vectors ids pos box in
  norm2 (subtract_min_image_vectors ids (with_coordinate pos (id_at ids 1) i x) box) =
  axis_norm2 (idx (pos (id_at ids 0)) i) (norm2 delta - idx delta i * idx delta i) x.
Proof.
  intros Hi Hne Hx delta; rewrite <- calc_squared_distance_spec.
  apply squared_distance_along_axis; assumption.
Qed.

Lemma dot_along_axis ids pos box i x w :
  (i < 3)%nat -> id_at ids 0 <> id_at ids 1 ->
  - idx box i < x - idx (pos (id_at ids 0)) i < idx box i ->
  let delta := subtract_min_image_vectors ids pos box in
  dot_product
    (subtract_min_image_vectors ids (with_coordinate pos (id_at ids 1) i x) box) w =
  axis_dot (idx (pos (id_at ids 0)) i) (idx w i)
    (dot_product delta w - idx delta i * idx w i) x.
Proof.
  intros Hi Hne Hx delta; subst delta; unfold axis_dot.
  rewrite !dot_product_spec.
  change (c0 ?v) with (idx v 0); change (c1 ?v) with (idx v 1);
    change (c2 ?v) with (idx v 2).
  rewrite !subtract_min_image_vectors_at by lia.
  rewrite !with_coordinate_same by lia.
  rewrite !with_coordinate_other by exact Hne.
  each_axis i Hi; cbn [Nat.eqb];
    rewrite (min_image_component_id (x - _)) by lra; ring.
Qed.

Lemma first_after_two_stores (u w : vec3) (l : list vec3) :
  (0 < length l)%nat -> <[1%nat := w]> (<[0%nat := u]> l) !!! 0%nat = u.
Proof. destruct l as [|x [|y l]]; cbn [length]; intros; [lia | |]; reflexivity. Qed.

Lemma angle_gradient_algebra (m dlt k r q s dpr : R) :
  r <> 0 -> q <> 0 -> s <> 0 ->
  -1 / s * (m / (r * q) - k * dlt / (r * r)) * dpr =
  - (dpr * (/ 2 * (2 * m * (1 / (r * q * s)) - k / (r * r * s) * (2 * dlt)))).
Proof. intros; field; repeat split; assumption. Qed.

Section AngleDerivative.

Variable VERYSMALL_F : R.
Hypothesis epsilon_small : 0 < VERYSMALL_F <= 1.

(** Near a configuration that is strictly in range and strictly unclamped,
    the stored angle is the arccosine of [axis_cosine]. *)
Lemma angle_value_along_axis ids pos box cutoff2 fresh pv derivs i x :
  let e := id_at ids 0 in
  let e1 := id_at ids 1 in
  let v := id_at ids 2 in
  let d20 := subtract_min_image_vectors [v; e] pos box in
  let d21 := subtract_min_image_vectors [v; e1] pos box in
  let a := idx (pos v) i in
  let C := norm2 d20 - idx d20 i * idx d20 i in
  let D := dot_product d20 d21 - idx d20 i * idx d21 i in
  let q := sqrt (norm2 d21) in
  (i < 3)%nat -> e <> v -> e <> e1 ->
  norm2 d21 <> 0 -> norm2 d21 <= cutoff2 ->
  - idx box i < x - a < idx box i ->
  0 < axis_norm2 a C x < cutoff2 ->
  -1 + VERYSMALL_F < axis_cosine a (idx d21 i) C D q x < 1 - VERYSMALL_F ->
  param_of (conditionally_calc_angle_and_derivatives VERYSMALL_F
              ids (with_coordinate pos e i x) box cutoff2 fresh pv derivs) =
  acos (axis_cosine a (idx d21 i) C D q x) * DEGREES_PER_RADIAN.
Proof.
  intros e e1 v d20 d21 a C D q Hi Hev He1 N21 C21 Hx Hn Hk.
  rewrite angle_unfold; cbv zeta; fold e e1 v.
  rewrite (subtract_unmoved [v; e1]) by
    (cbn [id_at nth]; intros E;
     solve [apply Hev; symmetry; exact E | apply He1; symmetry; exact E]).
  fold d21.
  assert (Hne : id_at [v; e] 0 <> id_at [v; e] 1)
    by (cbn [id_at nth]; intros E; apply Hev; symmetry; exact E).
  pose proof (norm2_along_axis [v; e] pos box i x Hi Hne Hx) as En.
  pose proof (dot_along_axis [v; e] pos box i x d21 Hi Hne Hx) as Ed.
  cbv zeta in En, Ed; cbn [id_at nth] in En, Ed; fold d20 a C D in En, Ed.
  set (d20x := subtract_min_image_vectors [v; e] (with_coordinate pos e i x) box) in *.
  assert (G20 : Rgtb (norm2 d20x) cutoff2 = false) by (apply Rgtb_false; lra).
  assert (G21 : Rgtb (norm2 d21) cutoff2 = false) by (apply Rgtb_false; lra).
  rewrite G20, G21; cbn [orb]; unfold param_of; cbn [fst snd].
  destruct (raw_cosine_range d20x d21 ltac:(lra) N21) as [E _].
  rewrite E, En, Ed; fold q.
  change (axis_dot a (idx d21 i) D x / (sqrt (axis_norm2 a C x) * q))
    with (axis_cosine a (idx d21 i) C D q x).
  rewrite check_cos_id by lra; reflexivity.
Qed.

(** X25. For an angle that is strictly in range, with nonzero vertex
    distances, a cosine strictly inside the clamp and the minimum-image step
    inactive on the axis considered, the first gradient stored by the angle
    routine is the derivative of the angle in radians with respect to the
    first end particle, with the opposite sign: the stored value, which is
    in degrees, has derivative [- DEGREES_PER_RADIAN] times the stored
    gradient component. *)
Theorem angle_gradient_is_minus_derivative ids pos box cutoff2 fresh pv derivs i :
  let e := id_at ids 0 in
  let e1 := id_at ids 1 in
  let v := id_at ids 2 in
  let d20 := subtract_min_image_vectors [v; e] pos box in
  let d21 := subtract_min_image_vectors [v; e1] pos box in
  let true_cosine := dot_product d20 d21 / (sqrt (norm2 d20) * sqrt (norm2 d21)) in
  let g := derivs_of (conditionally_calc_angle_and_derivatives VERYSMALL_F
                        ids pos box cutoff2 fresh pv derivs) !!! 0%nat in
  (i < 3)%nat -> e <> v -> e <> e1 ->
  - idx box i < idx (pos e) i - idx (pos v) i < idx box i ->
  norm2 d20 <> 0 -> norm2 d21 <> 0 ->
  norm2 d20 < cutoff2 -> norm2 d21 <= cutoff2 ->
  -1 + VERYSMALL_F < true_cosine < 1 - VERYSMALL_F ->
  (0 < length derivs)%nat ->
  derivable_pt_lim
    (fun x => param_of (conditionally_calc_angle_and_derivatives VERYSMALL_F
                          ids (with_coordinate pos e i x) box cutoff2 fresh pv derivs))
    (idx (pos e) i) (- (DEGREES_PER_RADIAN * idx g i)).
Proof.
  intros e e1 v d20 d21 true_cosine g Hi Hev He1 Hraw N20 N21 C20 C21 Hk Hl.
  set (a := idx (pos v) i); set (x0 := idx (pos e) i).
  set (C := norm2 d20 - idx d20 i * idx d20 i).
  set (D := dot_product d20 d21 - idx d20 i * idx d21 i).
  set (q := sqrt (norm2 d21)); set (m := idx d21 i).
  assert (Hd : idx d20 i = x0 - a)
    by (apply (unwrapped_component [v; e] pos box i Hi); exact Hraw).
  assert (En : axis_norm2 a C x0 = norm2 d20)
    by (unfold axis_norm2, C; rewrite Hd; ring).
  assert (Ek : axis_cosine a m C D q x0 = true_cosine).
  { unfold axis_cosine; rewrite En; unfold axis_dot, D, m, true_cosine, q.
    rewrite Hd; f_equal; ring. }
  pose proof (norm2_nonneg d20) as P20; pose proof (norm2_nonneg d21) as P21.
  assert (Hn0 : 0 < axis_norm2 a C x0) by (rewrite En; lra).
  assert (Hq : q <> 0) by (apply Rgt_not_eq, sqrt_lt_R0; lra).
  assert (Hk0 : -1 < axis_cosine a m C D q x0 < 1) by (rewrite Ek; lra).
  pose proof (axis_angle_derivative a m C D q x0 Hn0 Hq Hk0) as Der.
  (* a neighbourhood on which the routine computes this function *)
  destruct (room_around x0 (a - idx box i) (a + idx box i) ltac:(unfold x0, a; lra))
    as [W1 In1].
  destruct (continuity_keeps_bounds (axis_norm2 a C) x0 0 cutoff2
              (derivable_pt_lim_continuity _ _ _ (axis_norm2_derivative a C x0))
              ltac:(rewrite En; lra)) as (w2 & W2 & In2).
  destruct (continuity_keeps_bounds (axis_cosine a m C D q) x0
              (-1 + VERYSMALL_F) (1 - VERYSMALL_F)
              (derivable_pt_lim_continuity _ _ _
                 (axis_cosine_derivative a m C D q x0 Hn0 Hq))
              ltac:(rewrite Ek; exact Hk)) as (w3 & W3 & In3).
  set (w := Rmin (Rmin (a + idx box i - x0) (x0 - (a - idx box i))) (Rmin w2 w3)).
  assert (Hw : 0 < w)
    by (unfold w; apply Rmin_glb_lt; [exact W1 | apply Rmin_glb_lt; assumption]).
  assert (Local : forall z, x0 - w < z < x0 + w ->
            acos (axis_cosine a m C D q z) * DEGREES_PER_RADIAN =
            param_of (conditionally_calc_angle_and_derivatives VERYSMALL_F
                        ids (with_coordinate pos e i z) box cutoff2 fresh pv derivs)).
  { intros z Hz; symmetry.
    assert (Az : Rabs (z - x0) < w)
      by (unfold Rabs; destruct (Rcase_abs _); lra).
    assert (A1 : Rabs (z - x0)
                 < Rmin (a + idx box i - x0) (x0 - (a - idx box i)))
      by (eapply Rlt_le_trans; [exact Az | apply Rmin_l]).
    assert (A2 : Rabs (z - x0) < w2).
    { eapply Rlt_le_trans; [exact Az|].
      eapply Rle_trans; [apply Rmin_r | apply Rmin_l]. }
    assert (A3 : Rabs (z - x0) < w3).
    { eapply Rlt_le_trans; [exact Az|].
      eapply Rle_trans; [apply Rmin_r | apply Rmin_r]. }
    specialize (In1 z A1).
    apply angle_value_along_axis; try assumption.
    - change (- idx box i < z - a < idx box i); lra.
    - apply In2, A2.
    - apply In3, A3. }
  pose proof (derivable_pt_lim_locally_ext _ _ x0 (x0 - w) (x0 + w) _
                ltac:(lra) Local Der) as Final.
  (* the derivative, written with the quantities of the routine *)
  subst g; rewrite angle_unfold; cbv zeta; fold e e1 v d20 d21.
  assert (G20 : Rgtb (norm2 d20) cutoff2 = false) by (apply Rgtb_false; lra).
  assert (G21 : Rgtb (norm2 d21) cutoff2 = false) by (apply Rgtb_false; lra).
  rewrite G20, G21; cbn [orb]; unfold derivs_of; cbn [snd].
  destruct (raw_cosine_range d20 d21 N20 N21) as [E _]; fold true_cosine in E.
  rewrite E, (check_cos_id VERYSMALL_F true_cosine) by lra.
  rewrite first_after_two_stores by exact Hl.
  rewrite idx_tabulate3, !idx_scale, literal_half by exact Hi.
  rewrite sin_acos by lra.
  assert (Hs : sqrt (1 - true_cosine²) <> 0).
  { apply Rgt_not_eq, sqrt_lt_R0; unfold Rsqr; nra. }
  rewrite <- angle_gradient_algebra
    by (try exact Hs; try exact Hq; apply Rgt_not_eq, sqrt_lt_R0; lra).
  rewrite Ek, En in Final; rewrite Hd; exact Final.
Qed.

End AngleDerivative.

(** ** Change of the length unit *)

Lemma min_image_component_scaled k raw half :
  0 < k ->
  min_image_component (k * raw) (k * half) = k * min_image_component raw half.
Proof.
  intros Hk; unfold min_image_component.
  assert (E1 : Rgtb (k * raw) (k * half) = Rgtb raw half).
  { destruct (Rgtb raw half) eqn:E;
      [apply Rgtb_true in E; apply Rgtb_true | apply Rgtb_false in E; apply Rgtb_false];
      nra. }
  assert (E2 : Rltb (k * raw) (- (k * half)) = Rltb raw (- half)).
  { destruct (Rltb raw (- half)) eqn:E;
      [apply Rltb_true in E; apply Rltb_true | apply Rltb_false in E; apply Rltb_false];
      nra. }
  rewrite E1, E2; destruct (Rgtb raw half), (Rltb raw (- half)); ring.
Qed.

Lemma rescaled_displacement k ids pos box :
  0 < k ->
  subtract_min_image_vectors ids (rescaled k pos) (scale k box) =
  scale k (subtract_min_image_vectors ids pos box).
Proof.
  intros Hk; unfold subtract_min_image_vectors, tabulate3, rescaled, scale.
  cbn [idx c0 c1 c2]; apply vec3_ext; cbn [c0 c1 c2];
    rewrite <- min_image_component_scaled by exact Hk; f_equal; ring.
Qed.

Lemma norm2_scale k v : norm2 (scale k v) = k * k * norm2 v.
Proof. unfold norm2, scale; cbn [c0 c1 c2]; ring. Qed.

Lemma dot_product_scale k l a b :
  dot_product (scale k a) (scale l b) = k * l * dot_product a b.
Proof. rewrite !dot_product_spec; unfold scale; cbn [c0 c1 c2]; ring. Qed.

Lemma cross_product_scale k a b :
  cross_product (scale k a) (scale k b) = scale (k * k) (cross_product a b).
Proof. unfold cross_product, scale; apply vec3_ext; cbn [idx c0 c1 c2]; ring. Qed.

Lemma sqrt_scaled k n : 0 < k -> 0 <= n -> sqrt (k * k * n) = k * sqrt n.
Proof.
  intros Hk Hn; rewrite sqrt_mult by nra.
  rewrite sqrt_square by lra; reflexivity.
Qed.

Lemma reciprocal_scaled k r : k <> 0 -> 1 / (k * r) = / k * (1 / r).
Proof. intros Hk; unfold Rdiv; rewrite Rinv_mult; ring. Qed.

Lemma dot_product_self_nonneg v : 0 <= dot_product v v.
Proof. rewrite dot_product_self; apply norm2_nonneg. Qed.

Section Units.

Variable VERYSMALL_F : R.

(** X26. Changing the unit of length, that is multiplying every position
    and every half-length by the same [k > 0], multiplies [calc_distance] by
    [k] and leaves [calc_dihedral] as it is; with the cutoff multiplied by
    [k * k] the angle routine returns the same flag and the same value. *)
Theorem unit_of_length k ids pos box cutoff2 fresh pv derivs :
  0 < k ->
  calc_distance ids (rescaled k pos) (scale k box) = k * calc_distance ids pos box /\
  calc_dihedral VERYSMALL_F ids (rescaled k pos) (scale k box) =
    calc_dihedral VERYSMALL_F ids pos box /\
  returned (conditionally_calc_angle_and_derivatives VERYSMALL_F
              ids (rescaled k pos) (scale k box) (k * k * cutoff2) fresh pv derivs) =
    returned (conditionally_calc_angle_and_derivatives VERYSMALL_F
                ids pos box cutoff2 fresh pv derivs) /\
  param_of (conditionally_calc_angle_and_derivatives VERYSMALL_F
              ids (rescaled k pos) (scale k box) (k * k * cutoff2) fresh pv derivs) =
    param_of (conditionally_calc_angle_and_derivatives VERYSMALL_F
                ids pos box cutoff2 fresh pv derivs).
Proof.
  intros Hk.
  assert (Hkk : 0 < k * k) by nra.
  assert (Hk0 : k <> 0) by lra.
  assert (Hkk0 : k * k <> 0) by lra.
  split; [|split].
  - unfold calc_distance.
    rewrite !calc_squared_distance_spec, rescaled_displacement, norm2_scale by exact Hk.
    apply sqrt_scaled; [exact Hk | apply norm2_nonneg].
  - unfold calc_dihedral; cbv zeta.
    rewrite !(rescaled_displacement k _ pos box Hk).
    rewrite !cross_product_scale, !dot_product_scale.
    generalize (subtract_min_image_vectors [id_at ids 3; id_at ids 0] pos box).
    generalize (subtract_min_image_vectors [id_at ids 3; id_at ids 2] pos box).
    generalize (subtract_min_image_vectors [id_at ids 2; id_at ids 1] pos box).
    intros d12 d23 d03.
    rewrite !sqrt_scaled by (try exact Hk; try exact Hkk; apply dot_product_self_nonneg).
    rewrite !reciprocal_scaled by assumption.
    set (pb := cross_product d03 d23); set (pc := cross_product d12 d23).
    set (ib := 1 / sqrt (dot_product pb pb)).
    set (ic := 1 / sqrt (dot_product pc pc)).
    set (i23 := 1 / sqrt (dot_product d23 d23)).
    replace (k * k * (k * k) * dot_product pb pc * (/ (k * k) * ib) * (/ (k * k) * ic))
      with (dot_product pb pc * ib * ic) by (field; exact Hk0).
    replace (k * k * k * dot_product pb d12 * (/ (k * k) * ib) * (/ k * i23))
      with (dot_product pb d12 * ib * i23) by (field; exact Hk0).
    reflexivity.
  - rewrite !angle_unfold; cbv zeta.
    rewrite !(rescaled_displacement k _ pos box Hk).
    generalize (subtract_min_image_vectors [id_at ids 2; id_at ids 0] pos box).
    generalize (subtract_min_image_vectors [id_at ids 2; id_at ids 1] pos box).
    intros d21 d20.
    rewrite !norm2_scale.
    assert (G : forall n, Rgtb (k * k * n) (k * k * cutoff2) = Rgtb n cutoff2).
    { intros n; destruct (Rgtb n cutoff2) eqn:E;
        [apply Rgtb_true in E; apply Rgtb_true
        | apply Rgtb_false in E; apply Rgtb_false]; nra. }
    rewrite !G.
    destruct (Rgtb (norm2 d20) cutoff2), (Rgtb (norm2 d21) cutoff2);
      unfold returned, param_of; cbn [orb fst snd]; split; try reflexivity.
    rewrite !sqrt_scaled by (try exact Hk; apply norm2_nonneg).
    rewrite !dot_product_scale.
    do 2 f_equal.
    set (r := sqrt (norm2 d20)); set (q := sqrt (norm2 d21)).
    unfold Rdiv.
    replace (4 * (k * r) * (k * q)) with ((k * k) * (4 * r * q)) by ring.
    rewrite Rinv_mult.
    generalize (/ (4 * r * q)); intros z.
    f_equal; field; exact Hk0.
Qed.

End Units.

(** ** [calc_angle] beyond [MAXFLOAT] *)

Section BeyondMaxfloat.

Variable VERYSMALL_F : R.
Variable MAXFLOAT : R.
Hypothesis epsilon_small : 0 < VERYSMALL_F < 1.

Lemma calc_angle_stale ids pos box fresh :
  let d20 := subtract_min_image_vectors [id_at ids 2; id_at ids 0] pos box in
  let d21 := subtract_min_image_vectors [id_at ids 2; id_at ids 1] pos box in
  norm2 d20 > MAXFLOAT -> norm2 d21 <= MAXFLOAT ->
  calc_angle VERYSMALL_F MAXFLOAT ids pos box fresh =
  acos (check_cos VERYSMALL_F
          (dot_product (raw_dist_derivs_20 fresh) (scale 2 d21)
           / (4 * sqrt (norm2 d20) * sqrt (norm2 d21))))
  * DEGREES_PER_RADIAN.
Proof.
  intros d20 d21 H20 H21; unfold calc_angle.
  rewrite !squared_distance_unfold; cbv zeta; fold d20 d21.
  apply Rgtb_true in H20; apply Rgtb_false in H21; rewrite H20, H21.
  reflexivity.
Qed.

(** X27. When the first squared vertex distance exceeds [MAXFLOAT] (the
    second being within it, and both nonzero), [calc_angle] takes the
    gradient of the first bond from storage that nothing was written to: its
    result is 90 degrees if that storage holds zeros and a different angle
    for other contents of it, with the particles where they are. *)
Theorem calc_angle_reads_stale_storage ids pos box :
  let d20 := subtract_min_image_vectors [id_at ids 2; id_at ids 0] pos box in
  let d21 := subtract_min_image_vectors [id_at ids 2; id_at ids 1] pos box in
  norm2 d20 <> 0 -> norm2 d21 <> 0 ->
  norm2 d20 > MAXFLOAT -> norm2 d21 <= MAXFLOAT ->
  (forall r0 r1 j, calc_angle VERYSMALL_F MAXFLOAT ids pos box
                     (Scratch r0 r1 (Vec3 0 0 0) j) = 90) /\
  exists fresh, calc_angle VERYSMALL_F MAXFLOAT ids pos box fresh <> 90.
Proof.
  intros d20 d21 N20 N21 H20 H21.
  pose proof (norm2_nonneg d20) as P20; pose proof (norm2_nonneg d21) as P21.
  assert (R20 : 0 < sqrt (norm2 d20)) by (apply sqrt_lt_R0; lra).
  assert (R21 : 0 < sqrt (norm2 d21)) by (apply sqrt_lt_R0; lra).
  assert (Right : acos 0 * DEGREES_PER_RADIAN = 90)
    by (rewrite acos_0; unfold DEGREES_PER_RADIAN; field; apply PI_neq0).
  split.
  - intros r0 r1 j.
    rewrite calc_angle_stale by assumption; fold d20 d21; cbn [raw_dist_derivs_20].
    rewrite dot_product_zero_l; unfold Rdiv; rewrite Rmult_0_l.
    rewrite check_cos_id by lra; exact Right.
  - set (K := 4 * sqrt (norm2 d20) * sqrt (norm2 d21) / (4 * norm2 d21)).
    exists (Scratch 0 0 (scale K (scale 2 d21)) (Vec3 0 0 0)).
    rewrite calc_angle_stale by assumption; fold d20 d21; cbn [raw_dist_derivs_20].
    assert (E : dot_product (scale K (scale 2 d21)) (scale 2 d21)
                / (4 * sqrt (norm2 d20) * sqrt (norm2 d21)) = 1).
    { replace (scale 2 d21) with (scale 1 (scale 2 d21)) at 2
        by (unfold scale; apply vec3_ext; cbn [c0 c1 c2]; ring).
      rewrite dot_product_scale, dot_product_scale2, dot_product_self.
      unfold K; field; repeat split; lra. }
    rewrite E.
    assert (Ec : check_cos VERYSMALL_F 1 = 1 - VERYSMALL_F)
      by (unfold check_cos; cbv zeta; repeat cmp_cases; lra).
    rewrite Ec, <- Right; intros Heq.
    pose proof DEGREES_PER_RADIAN_pos as Hd.
    apply Rmult_eq_reg_r in Heq; [|lra].
    apply (f_equal cos) in Heq.
    rewrite !cos_acos in Heq by lra; lra.
Qed.

End BeyondMaxfloat.

(** ** The further properties at sample configurations *)

Lemma wide_box_nonneg i : (i < 3)%nat -> 0 <= idx wide_box i.
Proof. intros Hi; each_axis i Hi; cbn; lra. Qed.

Lemma narrow_box_nonneg i : (i < 3)%nat -> 0 <= idx narrow_box i.
Proof. intros Hi; each_axis i Hi; cbn; lra. Qed.

Lemma far_pair_in_wide_box :
  subtract_min_image_vectors [0%Z; 1%Z] far_pair_positions wide_box = Vec3 5 0 0.
Proof.
  rewrite subtract_min_image_vectors_no_wrap;
    [ apply vec3_ext; cbn; ring
    | intros i Hi; each_axis i Hi; cbn; lra ].
Qed.

Lemma far_pair_norm2 :
  norm2 (subtract_min_image_vectors [0%Z; 1%Z] far_pair_positions wide_box) = 25.
Proof. rewrite far_pair_in_wide_box; unfold norm2; cbn; ring. Qed.

Lemma right_angle_norms :
  norm2 (subtract_min_image_vectors [2%Z; 0%Z] right_angle_positions wide_box) = 1 /\
  norm2 (subtract_min_image_vectors [2%Z; 1%Z] right_angle_positions wide_box) = 1.
Proof.
  destruct right_angle_displacements as [-> ->]; unfold norm2; cbn; split; ring.
Qed.

Lemma right_angle_cosine :
  dot_product
    (subtract_min_image_vectors [2%Z; 0%Z] right_angle_positions wide_box)
    (subtract_min_image_vectors [2%Z; 1%Z] right_angle_positions wide_box)
  / (sqrt (norm2 (subtract_min_image_vectors
                    [2%Z; 0%Z] right_angle_positions wide_box))
     * sqrt (norm2 (subtract_min_image_vectors
                      [2%Z; 1%Z] right_angle_positions wide_box))) = 0.
Proof.
  destruct right_angle_displacements as [-> ->].
  rewrite dot_product_spec; cbn [c0 c1 c2]; unfold Rdiv.
  replace (-1 * 0 + 0 * 1 + 0 * 0) with 0 by ring; apply Rmult_0_l.
Qed.

Lemma right_angle_in_range fresh pv derivs :
  returned (conditionally_calc_angle_and_derivatives one_millionth
              [0%Z; 1%Z; 2%Z] right_angle_positions wide_box 4 fresh pv derivs) = true.
Proof.
  rewrite angle_unfold; cbv zeta; cbn [id_at nth].
  destruct right_angle_norms as [-> ->].
  assert (E : Rgtb 1 4 = false) by (apply Rgtb_false; lra).
  rewrite E; reflexivity.
Qed.

Lemma quarter_turn_normals :
  norm2 (cross_product
           (subtract_min_image_vectors [3%Z; 0%Z] quarter_turn_positions wide_box)
           (subtract_min_image_vectors [3%Z; 2%Z] quarter_turn_positions wide_box)) = 1 /\
  norm2 (cross_product
           (subtract_min_image_vectors [2%Z; 1%Z] quarter_turn_positions wide_box)
           (subtract_min_image_vectors [3%Z; 2%Z] quarter_turn_positions wide_box)) = 1.
Proof.
  destruct quarter_turn_displacements as (-> & -> & ->).
  unfold norm2, cross_product; cbn [idx c0 c1 c2]; split; ring.
Qed.

Lemma planar_displacements :
  subtract_min_image_vectors [3%Z; 0%Z] planar_positions wide_box = Vec3 1 0 0 /\
  subtract_min_image_vectors [3%Z; 2%Z] planar_positions wide_box = Vec3 0 0 1 /\
  subtract_min_image_vectors [2%Z; 1%Z] planar_positions wide_box = Vec3 1 0 0.
Proof.
  repeat split;
    (rewrite subtract_min_image_vectors_no_wrap;
     [ apply vec3_ext; cbn; ring
     | intros i Hi; each_axis i Hi; cbn; lra ]).
Qed.

Lemma quarter_turn_triple :
  dot_product
    (cross_product
       (subtract_min_image_vectors [3%Z; 0%Z] quarter_turn_positions wide_box)
       (subtract_min_image_vectors [3%Z; 2%Z] quarter_turn_positions wide_box))
    (subtract_min_image_vectors [2%Z; 1%Z] quarter_turn_positions wide_box) = -1.
Proof.
  destruct quarter_turn_displacements as (-> & -> & ->).
  rewrite dot_product_spec; unfold cross_product; cbn [idx c0 c1 c2]; ring.
Qed.

Lemma get_minimum_image_single_step_witness :
  0 < idx (Vec3 1 1 1) 0 /\
  2 * 1 <= idx (get_minimum_image 1 far_pair_positions (Vec3 1 1 1) 1%Z) 0.
Proof.
  split; [cbn; lra|].
  apply (proj1 (get_minimum_image_single_step 1%Z far_pair_positions (Vec3 1 1 1)
                  0%nat ltac:(lia) ltac:(cbn; lra))).
  cbn; lra.
Defined.

Lemma displacement_after_wrapping_witness :
  - 3 <= idx (subtract_min_image_vectors [0%Z; 1%Z]
                (get_minimum_image 1
                   (get_minimum_image 0 far_pair_positions narrow_box) narrow_box)
                narrow_box) 0 <= 3.
Proof.
  exact (proj1 (displacement_after_wrapping 0%Z 1%Z far_pair_positions narrow_box
                  0%nat ltac:(lia)
                  ltac:(intros j Hj; each_axis j Hj; cbn; lra)
                  ltac:(intros j Hj; each_axis j Hj; cbn; lra))).
Defined.

Lemma distance_symmetric_witness :
  calc_distance [1%Z; 0%Z] far_pair_positions narrow_box =
  calc_distance [0%Z; 1%Z] far_pair_positions narrow_box.
Proof.
  apply (distance_symmetric 0%Z 1%Z far_pair_positions narrow_box narrow_box_nonneg).
Defined.

Lemma distance_within_half_diagonal_witness :
  0 <= calc_squared_distance [0%Z; 1%Z] far_pair_positions narrow_box
    <= norm2 narrow_box.
Proof.
  apply (distance_within_half_diagonal [0%Z; 1%Z] far_pair_positions narrow_box).
  intros i Hi; each_axis i Hi; cbn; unfold Rabs; destruct (Rcase_abs _); lra.
Defined.

Lemma wider_cutoff_keeps_result_witness :
  4 <= 9 /\
  (returned (conditionally_calc_squared_distance_and_derivatives
               [0%Z; 1%Z] far_pair_positions narrow_box 4 0 []) = true ->
   conditionally_calc_squared_distance_and_derivatives
     [0%Z; 1%Z] far_pair_positions narrow_box 9 0 [] =
   conditionally_calc_squared_distance_and_derivatives
     [0%Z; 1%Z] far_pair_positions narrow_box 4 0 []).
Proof.
  split; [lra|].
  apply (wider_cutoff_keeps_result one_millionth
           [0%Z; 1%Z] far_pair_positions narrow_box 4 9 stale 0 []); lra.
Defined.

Lemma negative_cutoff_rejects_witness :
  -1 < 0 /\
  returned (conditionally_calc_squared_distance_and_derivatives
              [0%Z; 1%Z] far_pair_positions narrow_box (-1) 0 []) = false.
Proof.
  split; [lra|].
  apply (negative_cutoff_rejects one_millionth
           [0%Z; 1%Z] far_pair_positions narrow_box (-1) stale 0 []); lra.
Defined.

Lemma distance_gradient_is_unit_witness :
  norm2 (derivs_of (conditionally_calc_distance_and_derivatives
                      [0%Z; 1%Z] far_pair_positions wide_box 100 0 [Vec3 0 0 0])
         !!! 0%nat) = 1.
Proof.
  apply (distance_gradient_is_unit [0%Z; 1%Z] far_pair_positions wide_box 100 0
           [Vec3 0 0 0]); rewrite ?far_pair_norm2; cbn [length]; (lra || lia).
Defined.

Lemma coincident_pair_witness :
  0 <= 1 /\ calc_distance [0%Z; 0%Z] far_pair_positions wide_box = 0.
Proof.
  split; [lra|].
  apply (coincident_pair 0%Z far_pair_positions wide_box 1 0 [] wide_box_nonneg); lra.
Defined.

Lemma intermediates_agree_with_angle_witness :
  (0 < length [Vec3 0 0 0])%nat /\
  within_cutoff
    (conditionally_calc_angle_and_intermediates one_millionth
       [0%Z; 1%Z; 2%Z] right_angle_positions wide_box 4 0 0
       [Vec3 0 0 0] [Vec3 0 0 0] [Vec3 0 0 0; Vec3 0 0 0] 0 0 0) =
  returned
    (conditionally_calc_angle_and_derivatives one_millionth
       [0%Z; 1%Z; 2%Z] right_angle_positions wide_box 4 stale 0
       [Vec3 0 0 0; Vec3 0 0 0]).
Proof.
  split; [cbn; lia|].
  apply (intermediates_agree_with_angle one_millionth
           [0%Z; 1%Z; 2%Z] right_angle_positions wide_box 4 stale 0 0
           [Vec3 0 0 0] [Vec3 0 0 0] [Vec3 0 0 0; Vec3 0 0 0] 0 0 0);
    cbn [length]; lia.
Defined.

Lemma intermediates_rejected_below_zero ids pos box raw_20 raw_21
    dd20 dd21 derivs pv rr_20 rr_21 :
  within_cutoff
    (conditionally_calc_angle_and_intermediates one_millionth
       ids pos box (-1) raw_20 raw_21 dd20 dd21 derivs pv rr_20 rr_21) = false.
Proof.
  rewrite intermediates_unfold; cbv zeta.
  assert (E : forall v, Rgtb (norm2 v) (-1) = true)
    by (intros v; apply Rgtb_true; pose proof (norm2_nonneg v); lra).
  rewrite !E; reflexivity.
Qed.

Lemma intermediates_on_failure_witness :
  param_val_after
    (conditionally_calc_angle_and_intermediates one_millionth
       [0%Z; 1%Z; 2%Z] right_angle_positions wide_box (-1) 0 0
       [Vec3 7 7 7] [Vec3 7 7 7] [Vec3 7 7 7; Vec3 7 7 7] 5 0 0) = 5.
Proof.
  apply (intermediates_on_failure one_millionth
           [0%Z; 1%Z; 2%Z] right_angle_positions wide_box (-1) 0 0
           [Vec3 7 7 7] [Vec3 7 7 7] [Vec3 7 7 7; Vec3 7 7 7] 5 0 0).
  apply intermediates_rejected_below_zero.
Defined.

Lemma calc_angle_agrees_with_gated_witness :
  calc_angle one_millionth 10000000000
    [0%Z; 1%Z; 2%Z] right_angle_positions wide_box stale =
  param_of (conditionally_calc_angle_and_derivatives one_millionth
              [0%Z; 1%Z; 2%Z] right_angle_positions wide_box 4 stale 0 []).
Proof.
  apply (calc_angle_agrees_with_gated one_millionth 10000000000
           [0%Z; 1%Z; 2%Z] right_angle_positions wide_box 4 stale stale 0 []);
    cbn [id_at nth];
    rewrite ?(proj1 right_angle_norms), ?(proj2 right_angle_norms);
    try lra.
  apply right_angle_in_range.
Defined.

Lemma check_cos_is_a_clamp_witness :
  0 < one_millionth <= 1 /\
  -1 + one_millionth <= check_cos one_millionth 2 <= 1 - one_millionth.
Proof.
  split; [exact one_millionth_small|].
  apply (check_cos_is_a_clamp one_millionth one_millionth_small 2 3).
Defined.

Lemma check_sine_keeps_away_from_zero_witness :
  0 < one_millionth <= 1 /\
  check_sine one_millionth 0 = 0.
Proof.
  split; [exact one_millionth_small|].
  exact (proj1 (proj2 (check_sine_keeps_away_from_zero
                         one_millionth one_millionth_small 0))).
Defined.

Lemma angle_cosine_error_witness :
  0 < one_millionth <= 1 /\
  exists c,
    Rabs (c - dot_product
               (subtract_min_image_vectors [2%Z; 0%Z] right_angle_positions wide_box)
               (subtract_min_image_vectors [2%Z; 1%Z] right_angle_positions wide_box)
             / (sqrt (norm2 (subtract_min_image_vectors
                               [2%Z; 0%Z] right_angle_positions wide_box))
                * sqrt (norm2 (subtract_min_image_vectors
                                 [2%Z; 1%Z] right_angle_positions wide_box))))
    <= one_millionth /\
    param_of (conditionally_calc_angle_and_derivatives one_millionth
                [0%Z; 1%Z; 2%Z] right_angle_positions wide_box 4 stale 0 []) =
    acos c * DEGREES_PER_RADIAN.
Proof.
  split; [exact one_millionth_small|].
  apply (angle_cosine_error one_millionth one_millionth_small
           [0%Z; 1%Z; 2%Z] right_angle_positions wide_box 4 stale 0 []);
    cbn [id_at nth];
    rewrite ?(proj1 right_angle_norms), ?(proj2 right_angle_norms); lra.
Defined.

Lemma angle_gradients_perpendicular_to_bonds_witness :
  0 < one_millionth <= 1 /\
  dot_product
    (derivs_of (conditionally_calc_angle_and_derivatives one_millionth
                  [0%Z; 1%Z; 2%Z] right_angle_positions wide_box 4 stale 0
                  [Vec3 0 0 0; Vec3 0 0 0]) !!! 0%nat)
    (subtract_min_image_vectors [2%Z; 0%Z] right_angle_positions wide_box) = 0.
Proof.
  split; [exact one_millionth_small|].
  apply (angle_gradients_perpendicular_to_bonds one_millionth one_millionth_small
           [0%Z; 1%Z; 2%Z] right_angle_positions wide_box 4 stale 0
           [Vec3 0 0 0; Vec3 0 0 0]);
    cbn [id_at nth length];
    rewrite ?right_angle_cosine;
    rewrite ?(proj1 right_angle_norms), ?(proj2 right_angle_norms);
    try lia; unfold one_millionth; lra.
Defined.

Lemma dihedral_gradients_perpendicular_witness :
  (3 <= length [Vec3 0 0 0; Vec3 0 0 0; Vec3 0 0 0])%nat /\
  dot_product
    (derivs_of (conditionally_calc_dihedral_and_derivatives one_millionth
                  [0%Z; 1%Z; 2%Z; 3%Z] quarter_turn_positions wide_box 100 0
                  [Vec3 0 0 0; Vec3 0 0 0; Vec3 0 0 0]) !!! 2%nat)
    (subtract_min_image_vectors [3%Z; 2%Z] quarter_turn_positions wide_box) = 0.
Proof.
  split; [cbn; lia|].
  apply (dihedral_gradients_perpendicular one_millionth
           [0%Z; 1%Z; 2%Z; 3%Z] quarter_turn_positions wide_box 100 0
           [Vec3 0 0 0; Vec3 0 0 0; Vec3 0 0 0]);
    cbn [id_at nth length];
    rewrite ?(proj1 quarter_turn_normals), ?(proj2 quarter_turn_normals);
    (lia || lra).
Defined.

Lemma dihedral_never_flat_witness :
  0 < one_millionth <= 1 /\
  0 < Rabs (calc_dihedral one_millionth
              [0%Z; 1%Z; 2%Z; 3%Z] quarter_turn_positions wide_box) < 180.
Proof.
  split; [exact one_millionth_small|].
  apply (dihedral_never_flat one_millionth one_millionth_small
           [0%Z; 1%Z; 2%Z; 3%Z] quarter_turn_positions wide_box 100 0 []);
    cbn [id_at nth];
    rewrite ?(proj1 quarter_turn_normals), ?(proj2 quarter_turn_normals); lra.
Defined.

Lemma dihedral_handedness_witness :
  calc_dihedral one_millionth [0%Z; 1%Z; 2%Z; 3%Z]
    (inverted quarter_turn_positions) wide_box =
  - calc_dihedral one_millionth [0%Z; 1%Z; 2%Z; 3%Z] quarter_turn_positions wide_box /\
  calc_dihedral one_millionth [0%Z; 1%Z; 2%Z; 3%Z]
    (inverted planar_positions) wide_box =
  calc_dihedral one_millionth [0%Z; 1%Z; 2%Z; 3%Z] planar_positions wide_box.
Proof.
  split.
  - apply (dihedral_handedness one_millionth
             [0%Z; 1%Z; 2%Z; 3%Z] quarter_turn_positions wide_box wide_box_nonneg).
    cbn [id_at nth]; rewrite quarter_turn_triple; lra.
  - apply (proj2 (dihedral_handedness one_millionth
                    [0%Z; 1%Z; 2%Z; 3%Z] planar_positions wide_box wide_box_nonneg));
      cbn [id_at nth];
      rewrite ?(proj1 planar_displacements),
        ?(proj1 (proj2 planar_displacements)),
        ?(proj2 (proj2 planar_displacements));
      rewrite ?dot_product_spec; unfold norm2, cross_product; cbn [idx c0 c1 c2];
      lra.
Defined.

Lemma squared_distance_gradient_is_derivative_witness :
  exists l,
    derivable_pt_lim
      (fun x => calc_squared_distance [0%Z; 1%Z]
                  (with_coordinate far_pair_positions 1%Z 0%nat x) wide_box)
      5 l.
Proof.
  eexists.
  apply (squared_distance_gradient_is_derivative
           [0%Z; 1%Z] far_pair_positions wide_box 100 0 [Vec3 0 0 0] 0%nat);
    rewrite ?far_pair_norm2; cbn; (lia || lra).
Defined.

Lemma distance_gradient_is_derivative_witness :
  exists l,
    derivable_pt_lim
      (fun x => calc_distance [0%Z; 1%Z]
                  (with_coordinate far_pair_positions 1%Z 0%nat x) wide_box)
      5 l.
Proof.
  eexists.
  apply (distance_gradient_is_derivative
           [0%Z; 1%Z] far_pair_positions wide_box 100 0 [Vec3 0 0 0] 0%nat);
    rewrite ?far_pair_norm2; cbn; (lia || lra).
Defined.

Lemma angle_gradient_is_minus_derivative_witness :
  0 < one_millionth <= 1 /\
  exists l,
    derivable_pt_lim
      (fun x => param_of
                  (conditionally_calc_angle_and_derivatives one_millionth
                     [0%Z; 1%Z; 2%Z]
                     (with_coordinate right_angle_positions 0%Z 0%nat x)
                     wide_box 4 stale 0 [Vec3 0 0 0; Vec3 0 0 0]))
      0 l.
Proof.
  split; [exact one_millionth_small|].
  eexists.
  apply (angle_gradient_is_minus_derivative one_millionth one_millionth_small
           [0%Z; 1%Z; 2%Z] right_angle_positions wide_box 4 stale 0
           [Vec3 0 0 0; Vec3 0 0 0] 0%nat);
    cbn [id_at nth length];
    rewrite ?right_angle_cosine;
    rewrite ?(proj1 right_angle_norms), ?(proj2 right_angle_norms);
    try lia; try (unfold one_millionth; lra); cbn; lra.
Defined.

Lemma unit_of_length_witness :
  0 < 2 /\
  calc_distance [0%Z; 1%Z] (rescaled 2 far_pair_positions) (scale 2 narrow_box) =
  2 * calc_distance [0%Z; 1%Z] far_pair_positions narrow_box.
Proof.
  split; [lra|].
  apply (unit_of_length one_millionth 2
           [0%Z; 1%Z] far_pair_positions narrow_box 4 stale 0 []); lra.
Defined.

Lemma quarter_turn_bond_norms :
  norm2 (subtract_min_image_vectors [2%Z; 0%Z] quarter_turn_positions wide_box) = 2 /\
  norm2 (subtract_min_image_vectors [2%Z; 1%Z] quarter_turn_positions wide_box) = 1.
Proof.
  split;
    (rewrite subtract_min_image_vectors_no_wrap;
     [ unfold norm2; cbn; ring
     | intros i Hi; each_axis i Hi; cbn; lra ]).
Qed.

Lemma calc_angle_reads_stale_storage_witness :
  0 < one_millionth < 1 /\
  calc_angle one_millionth (3 / 2)
    [0%Z; 1%Z; 2%Z] quarter_turn_positions wide_box
    (Scratch 0 0 (Vec3 0 0 0) (Vec3 0 0 0)) = 90.
Proof.
  assert (He : 0 < one_millionth < 1) by (unfold one_millionth; lra).
  split; [exact He|].
  apply (calc_angle_reads_stale_storage one_millionth (3 / 2) He
           [0%Z; 1%Z; 2%Z] quarter_turn_positions wide_box);
    cbn [id_at nth];
    rewrite ?(proj1 quarter_turn_bond_norms), ?(proj2 quarter_turn_bond_norms); lra.
Defined.

Lemma get_minimum_image_into_cell_witness :
  0 <= idx (get_minimum_image 0 (fun _ => Vec3 (-1) 7 3) narrow_box 0%Z) 0 < 2 * 3.
Proof.
  apply (proj1 (get_minimum_image_into_cell 0%Z (fun _ => Vec3 (-1) 7 3) narrow_box)
           0%nat ltac:(lia)).
  cbn; lra.
Defined.

Lemma distance_agrees_with_squared_distance_witness :
  (0 < length [Vec3 0 0 0])%nat /\
  norm2 (subtract_min_image_vectors [0%Z; 1%Z] far_pair_positions wide_box) <> 0 /\
  derivs_of (conditionally_calc_distance_and_derivatives
               [0%Z; 1%Z] far_pair_positions wide_box 100 0 [Vec3 0 0 0]) !!! 0%nat =
  divide (subtract_min_image_vectors [0%Z; 1%Z] far_pair_positions wide_box)
    (param_of (conditionally_calc_distance_and_derivatives
                 [0%Z; 1%Z] far_pair_positions wide_box 100 0 [Vec3 0 0 0])).
Proof.
  assert (N : norm2 (subtract_min_image_vectors
                       [0%Z; 1%Z] far_pair_positions wide_box) <> 0)
    by (rewrite far_pair_norm2; lra).
  split; [cbn; lia|]; split; [exact N|].
  apply (proj2 (distance_agrees_with_squared_distance
                  [0%Z; 1%Z] far_pair_positions wide_box 100 0 0 [Vec3 0 0 0])).
  - rewrite squared_distance_in_range by (rewrite far_pair_norm2; lra).
    reflexivity.
  - cbn; lia.
  - exact N.
Defined.
